(** * Diggles 3DB converter: the glTF buffer serializer

    A shallow embedding of [export_to_gltf] (python3/lib/export.py) and of
    the helpers it calls, with the properties of the serializer stated in
    the design document proved or refuted over it.  The second part
    embeds [clean_material_name], [build_vertices_array] and
    [analyze_material_usage] of the same file and the option
    [--animation] of run.py, and proves what the code shows of them and
    of whole runs of the serializer.

    - Python [float] is IEEE binary64: Rocq's primitive [float].
    - Python [str] is a sequence of code points: [list N].
    - Python [bytes] is [list byte].
    - [print] is a log of structured messages.
    - The model object is shared and mutable: it is part of the state that
      the loops thread through, so that what [list.extend] does to a pool
      entry is seen by every later reader of that entry.
    - [struct.pack] depends on the platform (native byte order and size)
      and can raise; it is a parameter of the development, with an
      instance for a little-endian platform. *)

From Stdlib Require Import ZArith NArith Floats List String Ascii.
From Stdlib.Strings Require Import Byte.
From Stdlib Require Import DecimalString.
From stdpp Require Import base option list gmap sorting.

Set Default Proof Using "Type".
Open Scope nat_scope.

(** ** Python strings *)

Module PyStr.

Definition str := list N.

Definition of_ascii (c : ascii) : N := N_of_ascii c.

(** A literal: every character of a Rocq string is a code point below 256. *)
Fixpoint lit (s : string) : str :=
  match s with
  | EmptyString => []
  | String c s' => of_ascii c :: lit s'
  end.

(** [format(n, "02d")]: decimal digits, padded with zeros to two columns. *)
Definition decimal (n : nat) : str :=
  lit (NilEmpty.string_of_uint (Nat.to_uint n)).

Definition zfill (width : nat) (s : str) : str :=
  replicate (width - length s) 48%N ++ s.

Definition format_02d (n : nat) : str := zfill 2 (decimal n).

Fixpoint starts_with (pat s : str) : bool :=
  match pat, s with
  | [], _ => true
  | _ :: _, [] => false
  | p :: pat', c :: s' => N.eqb p c && starts_with pat' s'
  end.

(** [s.replace(old, new)] for a non-empty [old]: occurrences are found
    from the left and do not overlap.  [skip] counts the characters of a
    match that are still to be dropped. *)
Fixpoint replace_go (old new : str) (skip : nat) (s : str) : str :=
  match s with
  | [] => []
  | c :: s' =>
      match skip with
      | S k => replace_go old new k s'
      | O =>
          if starts_with old s
          then new ++ replace_go old new (length old - 1) s'
          else c :: replace_go old new 0 s'
      end
  end.

Definition replace (old new s : str) : str := replace_go old new 0 s.

(** [str.isspace] on one code point. *)
Definition is_space (c : N) : bool :=
  ((9 <=? c) && (c <=? 13) || (28 <=? c) && (c <=? 32)
   || (c =? 133) || (c =? 160) || (c =? 5760)
   || (8192 <=? c) && (c <=? 8202)
   || (c =? 8232) || (c =? 8233) || (c =? 8239) || (c =? 8287)
   || (c =? 12288))%N.

Fixpoint lstrip (s : str) : str :=
  match s with
  | [] => []
  | c :: s' => if is_space c then lstrip s' else s
  end.

Definition rstrip (s : str) : str := rev (lstrip (rev s)).

Definition strip (s : str) : str := rstrip (lstrip s).

(** *** [bytes.decode('utf-8', errors='ignore')]

    CPython's decoder: a well-formed sequence gives its code point; at an
    ill-formed one the longest prefix that could still start a
    well-formed sequence (at least one byte) is dropped and decoding
    resumes behind it; a sequence cut short by the end of the input is
    dropped whole. *)

Definition is_cont (b : N) : bool := ((128 <=? b) && (b <=? 191))%N.

Definition second_of_3 (b0 b1 : N) : bool :=
  (is_cont b1
   && negb ((b0 =? 224) && (b1 <? 160))
   && negb ((b0 =? 237) && (160 <=? b1)))%N.

Definition second_of_4 (b0 b1 : N) : bool :=
  (is_cont b1
   && negb ((b0 =? 240) && (b1 <? 144))
   && negb ((b0 =? 244) && (144 <=? b1)))%N.

Definition low6 (b : N) : N := N.land b 63.

Fixpoint decode_utf8 (bs : list N) : str :=
  match bs with
  | [] => []
  | b0 :: r0 =>
      if (b0 <? 128)%N then b0 :: decode_utf8 r0
      else if (b0 <? 194)%N then decode_utf8 r0
      else if (b0 <? 224)%N then
        match r0 with
        | [] => []
        | b1 :: r1 =>
            if is_cont b1
            then (N.land b0 31 * 64 + low6 b1)%N :: decode_utf8 r1
            else decode_utf8 r0
        end
      else if (b0 <? 240)%N then
        match r0 with
        | [] => []
        | b1 :: r1 =>
            if second_of_3 b0 b1 then
              match r1 with
              | [] => []
              | b2 :: r2 =>
                  if is_cont b2
                  then (N.land b0 15 * 4096 + low6 b1 * 64 + low6 b2)%N
                         :: decode_utf8 r2
                  else decode_utf8 r1
              end
            else decode_utf8 r0
        end
      else if (b0 <? 245)%N then
        match r0 with
        | [] => []
        | b1 :: r1 =>
            if second_of_4 b0 b1 then
              match r1 with
              | [] => []
              | b2 :: r2 =>
                  if is_cont b2 then
                    match r2 with
                    | [] => []
                    | b3 :: r3 =>
                        if is_cont b3
                        then (N.land b0 7 * 262144 + low6 b1 * 4096
                              + low6 b2 * 64 + low6 b3)%N :: decode_utf8 r3
                        else decode_utf8 r2
                    end
                  else decode_utf8 r1
              end
            else decode_utf8 r0
        end
      else decode_utf8 r0
  end.

Definition decode_ignore (bs : list byte) : str :=
  decode_utf8 (map Byte.to_N bs).

(** [b"..."] literals. *)
Definition blit (s : string) : list byte := list_byte_of_string s.

End PyStr.

Import PyStr.


(** ** The decoded model *)

(** A name is [bytes] or [str]: the serializer tests [isinstance(_, bytes)]
    at every use. *)
Inductive PyName :=
| NameBytes (b : list byte)
| NameStr (s : str).

Abbreviation Vec3 := (float * float * float)%type.
Abbreviation Vec2 := (float * float)%type.

Module Material.
Record t := mk { name : PyName; path : PyName }.
End Material.

Module MeshLink.
Record t := mk {
  material : nat;
  points : nat;
  triangles : nat;
  texture_coordinates : nat }.
End MeshLink.

Module Mesh.
Record t := mk { links : list MeshLink.t }.
End Mesh.

Module Animation.
Record t := mk { name : PyName; meshes : list nat }.
End Animation.

Module Model.
(** Modelled from the spec: the classes of lib/parse_3db.py (the decoder is
    not among the sources).  The fields are those [export_to_gltf] reads;
    indices are unsigned, the three pools are lists of lists, points are
    triples and texture coordinates pairs of floats. *)
Record t := mk {
  name : PyName;
  materials : list Material.t;
  meshes : list Mesh.t;
  animations : list Animation.t;
  triangle_data : list (list N);
  points_data : list (list Vec3);
  texture_coordinates_data : list (list Vec2) }.

(** [model.texture_coordinates_data[i].extend(...)], seen as a store update. *)
Definition set_texture_coordinates (m : t) (i : nat) (uv : list Vec2) : t :=
  mk (name m) (materials m) (meshes m) (animations m) (triangle_data m)
     (points_data m) (<[i := uv]> (texture_coordinates_data m)).
End Model.

(** ** The glTF document under construction *)

Inductive ComponentType := UNSIGNED_INT | FLOAT.

Definition ComponentType_value (c : ComponentType) : N :=
  match c with UNSIGNED_INT => 5125 | FLOAT => 5126 end.

Inductive AccessorType := SCALAR | VEC2 | VEC3.

Module Accessor.
Record t := mk {
  bufferView : nat;
  byteOffset : nat;
  componentType : ComponentType;
  count : nat;
  type : AccessorType;
  min : option (list float);
  max : option (list float) }.
End Accessor.

Module Primitive.
Record t := mk {
  POSITION : nat;
  TEXCOORD_0 : nat;
  indices : nat;
  material : nat }.
End Primitive.

Module GMesh.
Record t := mk { primitives : list Primitive.t }.
End GMesh.

Module Node.
Record t := mk { mesh : nat; name : str }.
End Node.

Module GMaterial.
Record t := mk { name : str; original_index : nat; original_name : str }.
End GMaterial.

(** What the serializer prints. *)
Inductive Message :=
| DuplicateAnimationNames (names : list str)
| MeshIndexOutOfRange (mesh_idx : nat) (animation : PyName)
| EmptyPoints (animation : PyName) (frame_idx link_idx : nat)
| EmptyTriangles (animation : PyName) (frame_idx link_idx : nat)
| UVCountMismatch (n_uv n_vertices : nat) (animation : PyName)
    (frame_idx link_idx : nat)
| EmptyMesh (animation : PyName) (frame_idx link_idx : nat)
| ErrorProcessingMesh (animation : PyName) (frame_idx link_idx : nat)
| InvalidMaterialIndex (material_index : nat) (animation : PyName)
    (frame_idx link_idx : nat).

(** The local variables of [export_to_gltf] that outlive one loop
    iteration, together with the model object they are computed from. *)
Record State := mkState {
  model : Model.t;
  nodes : list Node.t;
  meshes : list GMesh.t;
  accessors : list Accessor.t;
  materials : list GMaterial.t;
  vertex_byte_array : list byte;
  index_byte_array : list byte;
  anim_name_indexer : gmap str nat;
  log : list Message }.

Definition print (msg : Message) (st : State) : State :=
  mkState (model st) (nodes st) (meshes st) (accessors st) (materials st)
    (vertex_byte_array st) (index_byte_array st) (anim_name_indexer st)
    (log st ++ [msg]).

Definition set_model (m : Model.t) (st : State) : State :=
  mkState m (nodes st) (meshes st) (accessors st) (materials st)
    (vertex_byte_array st) (index_byte_array st) (anim_name_indexer st)
    (log st).

Definition set_anim_name_indexer (ix : gmap str nat) (st : State) : State :=
  mkState (model st) (nodes st) (meshes st) (accessors st) (materials st)
    (vertex_byte_array st) (index_byte_array st) ix (log st).

(** ** Helpers of the serializer *)

Definition transform_point (p : Vec3) : Vec3 :=
  let scale := 100%float in
  let '(p0, p1, p2) := p in
  (((p0 - 0.5) * scale)%float, ((p1 - 0.5) * scale)%float,
   ((p2 - 0.5) * scale)%float).

(** [name.decode('utf-8', errors='ignore')] for [bytes] (it cannot raise),
    the string itself otherwise. *)
Definition decode_name (n : PyName) : str :=
  match n with
  | NameBytes b => decode_ignore b
  | NameStr s => s
  end.

(** [.replace("b'", "").replace("'", "").strip()] *)
Definition clean (s : str) : str :=
  strip (replace (lit "'") [] (replace (lit "b'") [] s)).

(** [operator.itemgetter(i)(vertex)] for [i] in [range(3)]. *)
Definition itemgetter (i : nat) (v : Vec3) : float :=
  let '(v0, v1, v2) := v in
  match i with 0 => v0 | 1 => v1 | _ => v2 end.

(** The builtin [min]: the first item is kept until a later one compares
    smaller; [None] is the [ValueError] on an empty list. *)
Definition py_min (l : list float) : option float :=
  match l with
  | [] => None
  | x :: l' => Some (fold_left (fun cur item => if (item <? cur)%float then item else cur) l' x)
  end.

(** The builtin [max]: a later item replaces the kept one when it compares
    greater. *)
Definition py_max (l : list float) : option float :=
  match l with
  | [] => None
  | x :: l' => Some (fold_left (fun cur item => if (cur <? item)%float then item else cur) l' x)
  end.

Definition vec3_values (v : Vec3) : list float :=
  let '(a, b, c) := v in [a; b; c].

Definition vec2_values (t : Vec2) : list float :=
  let '(a, b) := t in [a; b].

(** [for i, x in enumerate(l): body], where the body may raise. *)
Fixpoint for_enumerate {A St : Type} (body : nat -> A -> St -> option St)
    (i : nat) (l : list A) (st : St) : option St :=
  match l with
  | [] => Some st
  | x :: l' =>
      match body i x st with
      | Some st' => for_enumerate body (S i) l' st'
      | None => None
      end
  end.

(** ** The serializer *)

Section Serializer.

(** [struct.pack('f', value)] and [struct.pack('I', index)]: the bytes, or
    [None] when the call raises. *)
Variable pack_f : float -> option (list byte).
Variable pack_I : N -> option (list byte).

(** [for x in l: array.extend(pack(x))]: the bytes appended. *)
Fixpoint pack_all {A : Type} (pack : A -> option (list byte)) (l : list A)
    : option (list byte) :=
  match l with
  | [] => Some []
  | x :: l' => b ← pack x; bs ← pack_all pack l'; Some (b ++ bs)
  end.

(** The outcome of the [try] block of one link: [continue], or the values
    the rest of the iteration works on. *)
Inductive Resolved :=
| Skip (st : State)
| Ready (st : State) (triangles : list N) (vertices : list Vec3)
    (texture_coordinates : list Vec2).

(** Lines 630-664: the body of the [try].  An index past the end of a pool
    raises [IndexError], which the [except] clause turns into a message. *)
Definition resolve_link (animation : Animation.t) (frame_idx link_idx : nat)
    (mesh_link : MeshLink.t) (st : State) : Resolved :=
  let an := Animation.name animation in
  match Model.triangle_data (model st) !! MeshLink.triangles mesh_link,
        Model.points_data (model st) !! MeshLink.points mesh_link,
        Model.texture_coordinates_data (model st)
          !! MeshLink.texture_coordinates mesh_link with
  | Some triangles, Some points, Some texture_coordinates =>
      match points, triangles with
      | [], _ => Skip (print (EmptyPoints an frame_idx link_idx) st)
      | _ :: _, [] => Skip (print (EmptyTriangles an frame_idx link_idx) st)
      | _ :: _, _ :: _ =>
          let vertices := map transform_point points in
          let n_uv := length texture_coordinates in
          let n := length vertices in
          let '(st1, texture_coordinates1) :=
            if negb (n_uv =? n) then
              let st' := print (UVCountMismatch n_uv n an frame_idx link_idx) st in
              if n_uv <? n then
                (* [extend] grows the pool entry itself *)
                let extended :=
                  texture_coordinates ++ replicate (n - n_uv) (0, 0)%float in
                (set_model
                   (Model.set_texture_coordinates (model st')
                      (MeshLink.texture_coordinates mesh_link) extended) st',
                 extended)
              else
                (* the slice is a new list *)
                (st', take n texture_coordinates)
            else (st, texture_coordinates) in
          match vertices with
          | [] => Skip (print (EmptyMesh an frame_idx link_idx) st1)
          | _ :: _ => Ready st1 triangles vertices texture_coordinates1
          end
      end
  | _, _, _ => Skip (print (ErrorProcessingMesh an frame_idx link_idx) st)
  end.

(** Lines 729-742. *)
Definition material_name_of (m : Model.t) (material_index : nat) : str :=
  match Model.materials m !! material_index with
  | Some material => clean (decode_name (Material.name material))
  | None => []
  end.

(** Line 758 and 762. *)
Definition node_name (anim_name : str) (anim_idx frame_idx : nat)
    (material_name : str) : str :=
  clean (anim_name ++ lit "_" ++ format_02d anim_idx ++ lit "_frame"
         ++ format_02d frame_idx ++ lit "_" ++ material_name).

(** Lines 666-763: what follows the [try]; nothing here is guarded, so a
    [struct.pack] that raises ends the whole call. *)
Definition emit_link (animation : Animation.t) (anim_idx frame_idx link_idx : nat)
    (mesh_link : MeshLink.t) (st : State) (triangles : list N)
    (vertices : list Vec3) (texture_coordinates : list Vec2) : option State :=
  let vertex_data_start := length (vertex_byte_array st) in
  position_bytes ← pack_all pack_f (concat (map vec3_values vertices));
  let vertex_byte_array1 := vertex_byte_array st ++ position_bytes in
  mins ← mapM (fun i => py_min (map (itemgetter i) vertices)) [0; 1; 2];
  maxs ← mapM (fun i => py_max (map (itemgetter i) vertices)) [0; 1; 2];
  let texture_coords_start := length vertex_byte_array1 in
  uv_bytes ← pack_all pack_f (concat (map vec2_values texture_coordinates));
  let vertex_byte_array2 := vertex_byte_array1 ++ uv_bytes in
  let indices_start := length (index_byte_array st) in
  index_bytes ← pack_all pack_I triangles;
  let index_byte_array1 := index_byte_array st ++ index_bytes in
  let position_index := length (accessors st) in
  let accessors1 := accessors st ++
    [Accessor.mk 0 vertex_data_start FLOAT (length vertices) VEC3
       (Some mins) (Some maxs)] in
  let texture_coords_index := length accessors1 in
  let accessors2 := accessors1 ++
    [Accessor.mk 0 texture_coords_start FLOAT (length texture_coordinates)
       VEC2 None None] in
  let indices_index := length accessors2 in
  let accessors3 := accessors2 ++
    [Accessor.mk 1 indices_start UNSIGNED_INT (length triangles) SCALAR
       None None] in
  let '(material_index, log1) :=
    if length (Model.materials (model st)) <=? MeshLink.material mesh_link
    then (0, log st ++ [InvalidMaterialIndex (MeshLink.material mesh_link)
                          (Animation.name animation) frame_idx link_idx])
    else (MeshLink.material mesh_link, log st) in
  let mesh_index := length (meshes st) in
  let meshes1 := meshes st ++
    [GMesh.mk [Primitive.mk position_index texture_coords_index
                 indices_index material_index]] in
  let material_name := material_name_of (model st) material_index in
  let anim_name := decode_name (Animation.name animation) in
  Some (mkState (model st)
          (nodes st ++ [Node.mk mesh_index
                          (node_name anim_name anim_idx frame_idx material_name)])
          meshes1 accessors3 (materials st) vertex_byte_array2
          index_byte_array1 (anim_name_indexer st) log1).

(** One iteration of the loop over [mesh.links]. *)
Definition process_link (animation : Animation.t) (anim_idx frame_idx : nat)
    (link_idx : nat) (mesh_link : MeshLink.t) (st : State) : option State :=
  match resolve_link animation frame_idx link_idx mesh_link st with
  | Skip st' => Some st'
  | Ready st' triangles vertices texture_coordinates =>
      emit_link animation anim_idx frame_idx link_idx mesh_link st'
        triangles vertices texture_coordinates
  end.

(** One iteration of the loop over [animation.meshes] (lines 621-629). *)
Definition process_frame (animation : Animation.t) (anim_idx : nat)
    (frame_idx : nat) (mesh_idx : nat) (st : State) : option State :=
  match Model.meshes (model st) !! mesh_idx with
  | None =>
      Some (print (MeshIndexOutOfRange mesh_idx (Animation.name animation)) st)
  | Some mesh =>
      for_enumerate (process_link animation anim_idx frame_idx) 0
        (Mesh.links mesh) st
  end.

(** Lines 616-619. *)
Definition bump_indexer (anim_name : str) (ix : gmap str nat) : gmap str nat :=
  match ix !! anim_name with
  | None => <[anim_name := 0]> ix
  | Some k => <[anim_name := k + 1]> ix
  end.

(** One iteration of the loop over [model.animations] (lines 607-621). *)
Definition process_animation (anim_idx : nat) (animation : Animation.t)
    (st : State) : option State :=
  let anim_name := decode_name (Animation.name animation) in
  let st1 := set_anim_name_indexer
               (bump_indexer anim_name (anim_name_indexer st)) st in
  for_enumerate (process_frame animation anim_idx) 0
    (Animation.meshes animation) st1.

(** Lines 560-577. *)
Definition gltf_materials (m : Model.t) : list GMaterial.t :=
  imap (fun i material =>
          let material_name := decode_name (Material.name material) in
          GMaterial.mk (lit "material_" ++ format_02d i ++ lit "_" ++ material_name)
            i material_name)
       (Model.materials m).

(** Lines 584-596: a dict keeps its keys in insertion order. *)
Fixpoint count_name (anim_name : str) (counts : list (str * nat))
    : list (str * nat) :=
  match counts with
  | [] => [(anim_name, 1)]
  | (k, c) :: counts' =>
      if bool_decide (k = anim_name) then (k, c + 1) :: counts'
      else (k, c) :: count_name anim_name counts'
  end.

Definition anim_name_counts (m : Model.t) : list (str * nat) :=
  fold_left (fun counts animation =>
               count_name (decode_name (Animation.name animation)) counts)
    (Model.animations m) [].

(** Lines 599-601. *)
Definition duplicate_names (m : Model.t) : list str :=
  map fst (filter (fun kc => (1 <? kc.2) = true) (anim_name_counts m)).

(** The state when the loop over the animations starts. *)
Definition initial_state (m : Model.t) : State :=
  mkState m [] [] [] (gltf_materials m) [] [] ∅
    (match duplicate_names m with
     | [] => []
     | names => [DuplicateAnimationNames names]
     end).

(** [export_to_gltf], from the creation of the material table to the end
    of the loop over the animations.  The result holds the lists and byte
    arrays the glTF document and its two buffers are then written from;
    [None] is an exception that escapes the call.  Creating directories,
    copying textures and writing the files are not part of the model. *)
Definition export_to_gltf (m : Model.t) : option State :=
  for_enumerate process_animation 0 (Model.animations m) (initial_state m).

End Serializer.

Arguments node_name : simpl never.
Arguments material_name_of : simpl never.
Arguments clean : simpl never.
Arguments decode_name : simpl never.
Arguments format_02d : simpl never.

(** ** [struct.pack] on a little-endian platform

    In native mode ['f'] is a C [float] and ['I'] a C [unsigned int], both
    of four bytes.  A [float] argument is converted with a C cast (to the
    nearest binary32 value, ties to even, infinity beyond the largest
    one), so packing it never raises; an index outside [0, 2^32) raises
    [struct.error]. *)

Module LittleEndian.

Definition le_bytes4 (z : Z) : list byte :=
  map (fun k => match Byte.of_N (Z.to_N (Z.land (Z.shiftr z (8 * k)) 255)) with
                | Some b => b
                | None => x00
                end)
      [0; 1; 2; 3]%Z.

Definition sign_bit (s : bool) : Z := if s then 2147483648 else 0.

(** The bit pattern of a binary32 value given as sign, mantissa, exponent. *)
Definition binary32_bits (x : spec_float) : Z :=
  match x with
  | S754_zero s => sign_bit s
  | S754_infinity s => sign_bit s + 2139095040
  | S754_nan => 2143289344
  | S754_finite s m e =>
      sign_bit s
      + (if 8388608 <=? Z.pos m
         then (e + 150) * 8388608 + (Z.pos m - 8388608)
         else Z.pos m)
  end%Z.

Definition to_binary32 (x : float) : spec_float :=
  match Prim2SF x with
  | S754_finite s m e => binary_normalize 24 128 (cond_Zopp s (Z.pos m)) e s
  | y => y
  end.

Definition pack_f (value : float) : option (list byte) :=
  Some (le_bytes4 (binary32_bits (to_binary32 value))).

Definition pack_I (index : N) : option (list byte) :=
  if (index <? 4294967296)%N then Some (le_bytes4 (Z.of_N index)) else None.

Definition export_to_gltf : Model.t -> option State :=
  export_to_gltf pack_f pack_I.

End LittleEndian.

(** ** Notions the properties are stated with *)

(** A link the serializer does not emit: one of its three pool indices is
    out of range, or its points or its triangles are empty. *)
Definition skipped_link (m : Model.t) (l : MeshLink.t) : bool :=
  match Model.triangle_data m !! MeshLink.triangles l,
        Model.points_data m !! MeshLink.points l,
        Model.texture_coordinates_data m !! MeshLink.texture_coordinates l with
  | Some triangles, Some points, Some _ =>
      (length points =? 0) || (length triangles =? 0)
  | _, _, _ => true
  end.

(** The message printed for a skipped link: it names the animation, the
    frame and the link. *)
Definition skip_message (a : Animation.t) (fi li : nat) (msg : Message) : Prop :=
  msg = ErrorProcessingMesh (Animation.name a) fi li
  ∨ msg = EmptyPoints (Animation.name a) fi li
  ∨ msg = EmptyTriangles (Animation.name a) fi li.

(** The texture coordinates of a link with [n] vertices as the design
    document describes them: padded with [(0, 0)] or cut to [n] entries. *)
Definition reconcile_uv (uv : list Vec2) (n : nat) : list Vec2 :=
  take n (uv ++ replicate (n - length uv) (0, 0)%float).

(** A pool entry that has only grown by [(0, 0)] entries at its end. *)
Definition padded (original current : list Vec2) : Prop :=
  ∃ k, current = original ++ replicate k (0, 0)%float.

(** What every state of a run on the model [m] satisfies: the model object
    is [m] except that entries of the texture-coordinate pool may have been
    padded.  It holds when the loops start ([model_inv_initial]) and every
    iteration of every loop keeps it ([process_link_inv],
    [process_frame_inv], [process_animation_inv]). *)
Record model_inv (m : Model.t) (st : State) : Prop := {
  inv_name : Model.name (model st) = Model.name m;
  inv_materials : Model.materials (model st) = Model.materials m;
  inv_meshes : Model.meshes (model st) = Model.meshes m;
  inv_animations : Model.animations (model st) = Model.animations m;
  inv_triangles : Model.triangle_data (model st) = Model.triangle_data m;
  inv_points : Model.points_data (model st) = Model.points_data m;
  inv_uv : Forall2 padded (Model.texture_coordinates_data m)
             (Model.texture_coordinates_data (model st)) }.



(** The model object after the [try] block of a link that resolves to
    [n] vertices and the texture coordinates [uv]. *)
Definition model_after (m : Model.t) (l : MeshLink.t) (uv : list Vec2) (n : nat)
    : Model.t :=
  if length uv <? n
  then Model.set_texture_coordinates m (MeshLink.texture_coordinates l)
         (uv ++ replicate (n - length uv) (0, 0)%float)
  else m.

(** The material a primitive is bound to (lines 712-715). *)
Definition bound_material (m : Model.t) (l : MeshLink.t) : nat :=
  if length (Model.materials m) <=? MeshLink.material l
  then 0 else MeshLink.material l.

(** A frame that yields at least one node: its mesh exists and has a link
    that is not skipped. *)
Definition frame_emits (m : Model.t) (mesh_idx : nat) : bool :=
  match Model.meshes m !! mesh_idx with
  | Some mesh => existsb (λ l, negb (skipped_link m l)) (Mesh.links mesh)
  | None => false
  end.

(** The parts of the state that make up the document and its buffers. *)
Definition same_document (st1 st2 : State) : Prop :=
  nodes st1 = nodes st2 ∧ meshes st1 = meshes st2
  ∧ accessors st1 = accessors st2 ∧ materials st1 = materials st2
  ∧ vertex_byte_array st1 = vertex_byte_array st2
  ∧ index_byte_array st1 = index_byte_array st2.

(** The model [m] with the links of mesh [k] replaced. *)
Definition with_links (m : Model.t) (k : nat) (ls : list MeshLink.t) : Model.t :=
  Model.mk (Model.name m) (Model.materials m)
    (<[k := Mesh.mk ls]> (Model.meshes m)) (Model.animations m)
    (Model.triangle_data m) (Model.points_data m)
    (Model.texture_coordinates_data m).




(** The node name the design document asks for. *)
Definition format_03d (n : nat) : str := zfill 3 (decimal n).

Definition spec_node_name (animation : str) (occurrence frame : nat)
    (material_name : str) : str :=
  animation ++ lit "_" ++ format_02d occurrence ++ lit "_frame"
  ++ format_03d frame ++ lit "_" ++ material_name.

(** Where a node comes from: frame [fi] of animation [ai], through a link
    of the mesh of that frame.  Its name is built from the name of the
    animation, the position of the animation in the model, the number of
    the frame and the name of the material the link is bound to. *)
Definition node_from (m : Model.t) (n : Node.t) : Prop :=
  ∃ ai a fi mi mesh l,
    Model.animations m !! ai = Some a
    ∧ Animation.meshes a !! fi = Some mi
    ∧ Model.meshes m !! mi = Some mesh
    ∧ l ∈ Mesh.links mesh
    ∧ Node.name n =
        clean (decode_name (Animation.name a) ++ lit "_" ++ format_02d ai
               ++ lit "_frame" ++ format_02d fi ++ lit "_"
               ++ material_name_of m (bound_material m l)).

(** The invariant of the three loops for the names of the nodes. *)
Definition names_inv (m : Model.t) (st : State) : Prop :=
  model_inv m st ∧ Forall (node_from m) (nodes st).

(** The name of the node of link [l], seen in frame [fi] of animation [a]
    at position [ai] of the model. *)
Definition indexed_name (m : Model.t) (ai : nat) (a : Animation.t) (fi : nat)
    (l : MeshLink.t) : str :=
  clean (decode_name (Animation.name a) ++ lit "_" ++ format_02d ai
         ++ lit "_frame" ++ format_02d fi ++ lit "_"
         ++ material_name_of m (bound_material m l)).

(** The names of the nodes of a frame: one for each link of its mesh that
    is not skipped, in the order of the links; none when the mesh does not
    exist. *)
Definition frame_node_names (m : Model.t) (ai : nat) (a : Animation.t)
    (fi mi : nat) : list str :=
  match Model.meshes m !! mi with
  | Some mesh =>
      map (indexed_name m ai a fi)
        (filter (λ l, skipped_link m l = false) (Mesh.links mesh))
  | None => []
  end.

(** The names of the nodes of an animation, frame after frame, and of the
    model, animation after animation. *)
Definition animation_node_names (m : Model.t) (ai : nat) (a : Animation.t)
    : list str :=
  concat (imap (frame_node_names m ai a) (Animation.meshes a)).

Definition node_names (m : Model.t) : list str :=
  concat (imap (animation_node_names m) (Model.animations m)).

(** Every triangle index fits an unsigned 32-bit integer, as the decoder's
    [u32] fields do. *)
Definition indices_fit (m : Model.t) : Prop :=
  Forall (Forall (λ i, (i < 4294967296)%N)) (Model.triangle_data m).

(** *** Notions that depend on [struct.pack] *)

Section Notions.

Variable pack_f : float → option (list byte).
Variable pack_I : N → option (list byte).

(** The bytes an emitted link contributes, computed from the decoded model:
    its transformed points, its reconciled texture coordinates and its
    triangle indices, packed.  [None] when a pool index is out of range or
    a [struct.pack] raises. *)
Definition link_bytes (m : Model.t) (l : MeshLink.t)
    : option (list byte * list byte * list byte) :=
  tris ← Model.triangle_data m !! MeshLink.triangles l;
  pts ← Model.points_data m !! MeshLink.points l;
  uv ← Model.texture_coordinates_data m !! MeshLink.texture_coordinates l;
  pos ← pack_all pack_f (concat (map vec3_values (map transform_point pts)));
  uvb ← pack_all pack_f
          (concat (map vec2_values (reconcile_uv uv (length pts))));
  idx ← pack_all pack_I tris;
  Some (pos, uvb, idx).

(** The number of frames, among [frames] numbered from [frame_idx], whose
    iteration adds at least one node: the frame groups of the animation. *)
Fixpoint frame_groups (animation : Animation.t) (anim_idx frame_idx : nat)
    (frames : list nat) (st : State) : option nat :=
  match frames with
  | [] => Some 0
  | mesh_idx :: frames' =>
      st' ← process_frame pack_f pack_I animation anim_idx frame_idx mesh_idx st;
      n ← frame_groups animation anim_idx (S frame_idx) frames' st';
      Some ((if length (nodes st) <? length (nodes st') then 1 else 0) + n)
  end.

(** The state in which the iteration for animation [anim_idx] starts. *)
Definition state_before (m : Model.t) (anim_idx : nat) : option State :=
  for_enumerate (process_animation pack_f pack_I) 0
    (take anim_idx (Model.animations m)) (initial_state m).

(** The frame groups of animation [anim_idx] in a run on [m]. *)
Definition animation_frame_groups (m : Model.t) (anim_idx : nat) : option nat :=
  animation ← Model.animations m !! anim_idx;
  st ← state_before m anim_idx;
  frame_groups animation anim_idx 0 (Animation.meshes animation)
    (set_anim_name_indexer
       (bump_indexer (decode_name (Animation.name animation))
          (anim_name_indexer st)) st).

(** Everything a link that is emitted leaves behind, in terms of the state
    [st] it started from. *)
Record emission (a : Animation.t) (ai fi li : nat) (l : MeshLink.t)
    (st st' : State) (tris : list N) (pts : list Vec3) (uv : list Vec2)
    (pos uvb idx : list byte) (mins maxs : list float) : Prop := {
  em_triangles :
    Model.triangle_data (model st) !! MeshLink.triangles l = Some tris;
  em_points : Model.points_data (model st) !! MeshLink.points l = Some pts;
  em_uv : Model.texture_coordinates_data (model st)
            !! MeshLink.texture_coordinates l = Some uv;
  em_points_ne : pts ≠ [];
  em_triangles_ne : tris ≠ [];
  em_pos :
    pack_all pack_f (concat (map vec3_values (map transform_point pts)))
    = Some pos;
  em_uvb :
    pack_all pack_f
      (concat (map vec2_values (reconcile_uv uv (length pts)))) = Some uvb;
  em_idx : pack_all pack_I tris = Some idx;
  em_mins :
    mapM (λ i, py_min (map (itemgetter i) (map transform_point pts)))
      [0; 1; 2] = Some mins;
  em_maxs :
    mapM (λ i, py_max (map (itemgetter i) (map transform_point pts)))
      [0; 1; 2] = Some maxs;
  em_model : model st' = model_after (model st) l uv (length pts);
  em_nodes : nodes st' = nodes st ++
    [Node.mk (length (meshes st))
       (node_name (decode_name (Animation.name a)) ai fi
          (material_name_of (model st) (bound_material (model st) l)))];
  em_meshes : meshes st' = meshes st ++
    [GMesh.mk [Primitive.mk (length (accessors st))
                 (length (accessors st) + 1) (length (accessors st) + 2)
                 (bound_material (model st) l)]];
  em_accessors : accessors st' = accessors st ++
    [Accessor.mk 0 (length (vertex_byte_array st)) FLOAT (length pts) VEC3
       (Some mins) (Some maxs);
     Accessor.mk 0 (length (vertex_byte_array st) + length pos) FLOAT
       (length pts) VEC2 None None;
     Accessor.mk 1 (length (index_byte_array st)) UNSIGNED_INT
       (length tris) SCALAR None None];
  em_materials : materials st' = materials st;
  em_vertex_bytes :
    vertex_byte_array st' = vertex_byte_array st ++ pos ++ uvb;
  em_index_bytes : index_byte_array st' = index_byte_array st ++ idx;
  em_indexer : anim_name_indexer st' = anim_name_indexer st;
  em_log : ∀ msg, msg ∈ log st → msg ∈ log st';
  em_log_material :
    length (Model.materials (model st)) ≤ MeshLink.material l →
    InvalidMaterialIndex (MeshLink.material l) (Animation.name a) fi li
      ∈ log st' }.

End Notions.

(** The accessors of the link emitted between the states [st] and [st']. *)
Definition position_accessor (st st' : State) : option Accessor.t :=
  accessors st' !! length (accessors st).

Definition uv_accessor (st st' : State) : option Accessor.t :=
  accessors st' !! S (length (accessors st)).

(** The part of the vertex stream the position accessor of that link
    describes: from its offset to the offset of the texture coordinates. *)
Definition position_bytes (st st' : State) : option (list byte) :=
  p ← position_accessor st st';
  t ← uv_accessor st st';
  Some (take (Accessor.byteOffset t - Accessor.byteOffset p)
          (drop (Accessor.byteOffset p) (vertex_byte_array st'))).

(** The part its texture-coordinate accessor describes: from its offset
    to the end of the stream as the link left it. *)
Definition uv_bytes (st st' : State) : option (list byte) :=
  t ← uv_accessor st st';
  Some (drop (Accessor.byteOffset t) (vertex_byte_array st')).

(** The primitive of the mesh the link appended. *)
Definition emitted_primitive (st st' : State) : option Primitive.t :=
  mesh ← meshes st' !! length (meshes st);
  GMesh.primitives mesh !! 0.

(** ** Sample models *)

Module Samples.

Definition skin : Material.t :=
  Material.mk (NameBytes (blit "skin")) (NameBytes (blit "tex\skin.tga")).

Definition triangle : list Vec3 := [(0, 0, 0); (1, 0, 0); (0, 1, 0)]%float.

(** The scenario of the design document: one material, one mesh of one
    link, one animation of one frame. *)
Definition idle : Model.t :=
  Model.mk (NameBytes (blit "idle")) [skin] [Mesh.mk [MeshLink.mk 0 0 0 0]]
    [Animation.mk (NameBytes (blit "idle")) [0]]
    [[0; 1; 2]%N] [triangle] [[(0, 0); (1, 0); (0, 1)]%float].

(** A link with five points and three texture coordinates. *)
Definition five_points : list Vec3 :=
  [(0, 0, 0); (1, 0, 0); (0, 1, 0); (1, 1, 0); (0.5, 0.5, 1)]%float.

Definition three_uv : list Vec2 := [(0, 0); (1, 0); (0.5, 1)]%float.

Definition short_uv : Model.t :=
  Model.mk (NameBytes (blit "short_uv")) [skin] [Mesh.mk [MeshLink.mk 0 0 0 0]]
    [Animation.mk (NameBytes (blit "idle")) [0]]
    [[0; 1; 2; 2; 3; 4]%N] [five_points] [three_uv].

(** Three animations, the last two with the same name. *)
Definition run_walk_walk : Model.t :=
  Model.mk (NameBytes (blit "walker")) [skin] [Mesh.mk [MeshLink.mk 0 0 0 0]]
    [Animation.mk (NameBytes (blit "run")) [0];
     Animation.mk (NameBytes (blit "walk")) [0];
     Animation.mk (NameBytes (blit "walk")) [0]]
    [[0; 1; 2]%N] [triangle] [[(0, 0); (1, 0); (0, 1)]%float].

(** An animation whose second frame names a mesh that does not exist. *)
Definition missing_frame : Model.t :=
  Model.mk (NameBytes (blit "gap")) [skin] [Mesh.mk [MeshLink.mk 0 0 0 0]]
    [Animation.mk (NameBytes (blit "idle")) [0; 7]]
    [[0; 1; 2]%N] [triangle] [[(0, 0); (1, 0); (0, 1)]%float].

(** A model without materials whose only link names material 0. *)
Definition no_materials : Model.t :=
  Model.mk (NameBytes (blit "bare")) [] [Mesh.mk [MeshLink.mk 0 0 0 0]]
    [Animation.mk (NameBytes (blit "idle")) [0]]
    [[0; 1; 2]%N] [triangle] [[(0, 0); (1, 0); (0, 1)]%float].

(** A mesh of three links, the middle one pointing outside the points pool. *)
Definition bad_middle : Model.t :=
  Model.mk (NameBytes (blit "three")) [skin]
    [Mesh.mk [MeshLink.mk 0 0 0 0; MeshLink.mk 0 9 0 0; MeshLink.mk 0 0 0 0]]
    [Animation.mk (NameBytes (blit "idle")) [0]]
    [[0; 1; 2]%N] [triangle] [[(0, 0); (1, 0); (0, 1)]%float].

(** A link that names material 1 in a model with one material. *)
Definition dangling_material : Model.t :=
  Model.mk (NameBytes (blit "dangling")) [skin] [Mesh.mk [MeshLink.mk 1 0 0 0]]
    [Animation.mk (NameBytes (blit "idle")) [0]]
    [[0; 1; 2]%N] [triangle] [[(0, 0); (1, 0); (0, 1)]%float].

Definition idle_animation : Animation.t :=
  Animation.mk (NameBytes (blit "idle")) [0].

Definition good_link : MeshLink.t := MeshLink.mk 0 0 0 0.
Definition bad_link : MeshLink.t := MeshLink.mk 0 9 0 0.

(** The state a run that completes ends in. *)
Definition final (m : Model.t) : State :=
  default (initial_state m) (LittleEndian.export_to_gltf m).

End Samples.

(** ** Further notions: the document as a whole *)

(** The number of components of an accessor's elements; every component
    is four bytes wide. *)
Definition components (t : AccessorType) : nat :=
  match t with SCALAR => 1 | VEC2 => 2 | VEC3 => 3 end.

(** The buffer behind a buffer view (lines 773-780): view 0 is the whole
    vertex buffer, view 1 the whole index buffer. *)
Definition buffer (st : State) (view : nat) : list byte :=
  match view with
  | 0 => vertex_byte_array st
  | _ => index_byte_array st
  end.

(** The elements an accessor describes lie inside its buffer. *)
Definition accessor_fits (st : State) (acc : Accessor.t) : Prop :=
  Accessor.byteOffset acc
  + 4 * components (Accessor.type acc) * Accessor.count acc
  ≤ length (buffer st (Accessor.bufferView acc)).

(** The bytes an accessor describes. *)
Definition accessor_bytes (acc : Accessor.t) : nat :=
  4 * components (Accessor.type acc) * Accessor.count acc.

(** The bytes the accessors [accs] describe in the buffer of [view]. *)
Definition view_bytes (view : nat) (accs : list Accessor.t) : nat :=
  sum_list (map accessor_bytes
              (filter (λ acc, Accessor.bufferView acc = view) accs)).

(** The accessors tile the two buffers: each starts where the accessors
    before it in the same buffer end, and the last one ends where the
    buffer ends. *)
Definition tiled (st : State) : Prop :=
  length (vertex_byte_array st) = view_bytes 0 (accessors st)
  ∧ length (index_byte_array st) = view_bytes 1 (accessors st)
  ∧ ∀ i acc,
      accessors st !! i = Some acc →
      Accessor.byteOffset acc
      = view_bytes (Accessor.bufferView acc) (take i (accessors st)).

(** The decoded names of the animations, in the order of the model. *)
Definition animation_names (m : Model.t) : list str :=
  map (λ a, decode_name (Animation.name a)) (Model.animations m).

Definition occurrences (k : str) (names : list str) : nat :=
  length (filter (λ x, x = k) names).

(** The count recorded for a name in the dict of lines 584-596. *)
Fixpoint assoc (k : str) (counts : list (str * nat)) : option nat :=
  match counts with
  | [] => None
  | (k', c) :: counts' => if decide (k' = k) then Some c else assoc k counts'
  end.

(** The links of a frame that are emitted: none when the mesh does not
    exist. *)
Definition emitted_links (m : Model.t) (mesh_idx : nat) : nat :=
  match Model.meshes m !! mesh_idx with
  | Some mesh => length (filter (λ l, skipped_link m l = false) (Mesh.links mesh))
  | None => 0
  end.

(** The emitted links of all frames of all animations. *)
Definition expected_nodes (m : Model.t) : nat :=
  sum_list (map (λ a, sum_list (map (emitted_links m) (Animation.meshes a)))
              (Model.animations m)).

(** The shape of the document: node [i] shows mesh [i], whose only
    primitive reads the accessors [3i], [3i+1] and [3i+2]: positions,
    texture coordinates of the same count, and indices. *)
Definition mesh_shape (st : State) (i : nat) (g : GMesh.t) : Prop :=
  ∃ mat ap at' ax,
    GMesh.primitives g = [Primitive.mk (3 * i) (3 * i + 1) (3 * i + 2) mat]
    ∧ accessors st !! (3 * i) = Some ap
    ∧ accessors st !! (3 * i + 1) = Some at'
    ∧ accessors st !! (3 * i + 2) = Some ax
    ∧ Accessor.type ap = VEC3 ∧ Accessor.componentType ap = FLOAT
    ∧ Accessor.bufferView ap = 0
    ∧ is_Some (Accessor.min ap) ∧ is_Some (Accessor.max ap)
    ∧ Accessor.type at' = VEC2 ∧ Accessor.componentType at' = FLOAT
    ∧ Accessor.bufferView at' = 0 ∧ Accessor.count at' = Accessor.count ap
    ∧ Accessor.type ax = SCALAR ∧ Accessor.componentType ax = UNSIGNED_INT
    ∧ Accessor.bufferView ax = 1.

Definition doc_inv (st : State) : Prop :=
  length (nodes st) = length (meshes st)
  ∧ length (accessors st) = 3 * length (meshes st)
  ∧ (∀ i n, nodes st !! i = Some n → Node.mesh n = i)
  ∧ (∀ i g, meshes st !! i = Some g → mesh_shape st i g).

(** * The other functions of lib/export.py, and the caller *)

(** [s.endswith(pat)] *)
Definition ends_with (pat s : str) : bool := starts_with (rev pat) (rev s).

(** [s[2:-1]]: without the first two characters and the last one; empty
    when the string has fewer than four characters. *)
Definition slice_2_m1 (s : str) : str := take (length s - 3) (drop 2 s).

(** [clean_material_name] (lines 189-210).  With [errors='ignore'] the
    decoding cannot raise, so the [except] branch is never taken; [str] of
    a string is the string. *)
Definition clean_material_name (name : PyName) : str :=
  let name := decode_name name in
  let name := if starts_with (lit "b'") name && ends_with (lit "'") name
              then slice_2_m1 name else name in
  replace [34%N] [] (replace (lit "'") [] name).

(** [l[i]] for a Python [int]: a negative index counts from the end, and
    [None] is the [IndexError]. *)
Definition py_getitem {A : Type} (l : list A) (i : Z) : option A :=
  if (0 <=? i)%Z then l !! Z.to_nat i
  else if (- Z.of_nat (length l) <=? i)%Z
       then l !! Z.to_nat (Z.of_nat (length l) + i)
       else None.

(** [build_vertices_array] (lines 537-540). *)
Definition build_vertices_array (triangles : list Z) (points : list Vec3)
    : option (list Vec3) :=
  mapM (py_getitem points) triangles.

(** ** [analyze_material_usage] (lines 289-346) *)

Module Usage.
Record t := mk {
  mesh_links : gset (nat * nat);
  link_positions : gset nat;
  animations : gset nat }.
End Usage.

(** What [analyze_material_usage] prints. *)
Inductive UsageMessage :=
| InvalidMaterial (mesh_idx link_idx material : nat)
| SummaryHeader
| SummaryMaterial (mat_idx : nat) (mat_name : str)
| SummaryLinks (mesh_links_count : nat) (link_positions : list nat)
| SummaryAnimations (anims_count : nat).

(** Lines 300-306. *)
Definition usage_init (n : nat) : gmap nat Usage.t :=
  fold_left (λ u i, <[i := Usage.mk ∅ ∅ ∅]> u) (seq 0 n) ∅.

(** Lines 311-316; a missing key is the [KeyError]. *)
Definition scan_link (m : Model.t) (mesh_idx link_idx : nat)
    (link : MeshLink.t) (s : gmap nat Usage.t * list UsageMessage)
    : option (gmap nat Usage.t * list UsageMessage) :=
  if MeshLink.material link <? length (Model.materials m) then
    usage ← s.1 !! MeshLink.material link;
    Some (<[MeshLink.material link :=
              Usage.mk ({[(mesh_idx, link_idx)]} ∪ Usage.mesh_links usage)
                ({[link_idx]} ∪ Usage.link_positions usage)
                (Usage.animations usage)]> s.1,
          s.2)
  else
    Some (s.1,
          s.2 ++ [InvalidMaterial mesh_idx link_idx (MeshLink.material link)]).

(** Lines 309-316. *)
Definition scan_mesh (m : Model.t) (mesh_idx : nat) (mesh : Mesh.t)
    (s : gmap nat Usage.t * list UsageMessage)
    : option (gmap nat Usage.t * list UsageMessage) :=
  for_enumerate (scan_link m mesh_idx) 0 (Mesh.links mesh) s.

(** Lines 324-326. *)
Definition track_link (m : Model.t) (anim_idx link_idx : nat)
    (link : MeshLink.t) (u : gmap nat Usage.t) : option (gmap nat Usage.t) :=
  if MeshLink.material link <? length (Model.materials m) then
    usage ← u !! MeshLink.material link;
    Some (<[MeshLink.material link :=
              Usage.mk (Usage.mesh_links usage) (Usage.link_positions usage)
                ({[anim_idx]} ∪ Usage.animations usage)]> u)
  else Some u.

(** Lines 321-326; the position of the frame is not used. *)
Definition track_frame (m : Model.t) (anim_idx frame_idx mesh_idx : nat)
    (u : gmap nat Usage.t) : option (gmap nat Usage.t) :=
  match Model.meshes m !! mesh_idx with
  | Some mesh => for_enumerate (track_link m anim_idx) 0 (Mesh.links mesh) u
  | None => Some u
  end.

(** Lines 319-326. *)
Definition track_animation (m : Model.t) (anim_idx : nat) (anim : Animation.t)
    (u : gmap nat Usage.t) : option (gmap nat Usage.t) :=
  for_enumerate (track_frame m anim_idx) 0 (Animation.meshes anim) u.

(** Lines 329-344.  The keys of the dict were inserted in the order
    [0 .. len(model.materials) - 1] and no statement adds another, so this
    is the order of [items()]. *)
Definition usage_summary (m : Model.t) (u : gmap nat Usage.t)
    : list UsageMessage :=
  SummaryHeader ::
  concat (map (λ mat_idx,
                 match Model.materials m !! mat_idx, u !! mat_idx with
                 | Some material, Some usage =>
                     [SummaryMaterial mat_idx
                        (decode_name (Material.name material));
                      SummaryLinks (size (Usage.mesh_links usage))
                        (merge_sort (≤)
                           (elements (Usage.link_positions usage)));
                      SummaryAnimations (size (Usage.animations usage))]
                 | _, _ => []
                 end)
            (seq 0 (length (Model.materials m)))).

(** The dict returned and the lines printed; [None] is an exception. *)
Definition analyze_material_usage (m : Model.t)
    : option (gmap nat Usage.t * list UsageMessage) :=
  s ← for_enumerate (scan_mesh m) 0 (Model.meshes m)
        (usage_init (length (Model.materials m)), []);
  u ← for_enumerate (track_animation m) 0 (Model.animations m) s.1;
  Some (u, s.2 ++ usage_summary m u).

(** The link at position [li] of mesh [mi]. *)
Definition link_at (m : Model.t) (mi li : nat) (l : MeshLink.t) : Prop :=
  ∃ mesh, Model.meshes m !! mi = Some mesh ∧ Mesh.links mesh !! li = Some l.

(** The state of the first loop of [analyze_material_usage] when the
    links at the positions [D] have been scanned. *)
Record scan_inv (m : Model.t) (D : nat → nat → Prop)
    (s : gmap nat Usage.t * list UsageMessage) : Prop := {
  scan_keys : ∀ k, is_Some (s.1 !! k) ↔ k < length (Model.materials m);
  scan_mesh_links : ∀ k usage mi li,
    s.1 !! k = Some usage →
    (mi, li) ∈ Usage.mesh_links usage
    ↔ D mi li ∧ ∃ l, link_at m mi li l ∧ MeshLink.material l = k;
  scan_positions : ∀ k usage li,
    s.1 !! k = Some usage →
    li ∈ Usage.link_positions usage ↔ ∃ mi, (mi, li) ∈ Usage.mesh_links usage;
  scan_animations : ∀ k usage,
    s.1 !! k = Some usage → Usage.animations usage = ∅;
  scan_log : ∀ msg,
    msg ∈ s.2
    ↔ ∃ mi li l, D mi li ∧ link_at m mi li l
                 ∧ length (Model.materials m) ≤ MeshLink.material l
                 ∧ msg = InvalidMaterial mi li (MeshLink.material l) }.

(** Link [li] of frame [fi] of animation [ai] is [l]. *)
Definition frame_link_at (m : Model.t) (ai fi li : nat) (l : MeshLink.t)
    : Prop :=
  ∃ a mi, Model.animations m !! ai = Some a
          ∧ Animation.meshes a !! fi = Some mi ∧ link_at m mi li l.

(** The state of the second loop when the links at the positions [E] of
    the frames have been seen; [u0] is the dict the loop started from. *)
Record track_inv (m : Model.t) (u0 : gmap nat Usage.t)
    (E : nat → nat → nat → Prop) (u : gmap nat Usage.t) : Prop := {
  track_keys : ∀ k, is_Some (u !! k) ↔ k < length (Model.materials m);
  track_mesh_links : ∀ k,
    Usage.mesh_links <$> u !! k = Usage.mesh_links <$> u0 !! k;
  track_positions : ∀ k,
    Usage.link_positions <$> u !! k = Usage.link_positions <$> u0 !! k;
  track_animations : ∀ k usage ai,
    u !! k = Some usage →
    ai ∈ Usage.animations usage
    ↔ ∃ fi li l, E ai fi li ∧ frame_link_at m ai fi li l
                 ∧ MeshLink.material l = k }.

(** Where a mesh of the document comes from: its only primitive is bound
    to the material of a link of a frame of an animation. *)
Definition mesh_from (m : Model.t) (g : GMesh.t) : Prop :=
  ∃ ai fi li l p,
    frame_link_at m ai fi li l
    ∧ GMesh.primitives g = [p]
    ∧ Primitive.material p = bound_material m l.

(** What the log says of frame [fi] of animation [a], whose mesh index
    is [mi]: that the mesh does not exist, or, of every link the
    serializer skips, why. *)
Definition frame_reported (m : Model.t) (a : Animation.t) (fi mi : nat)
    (st : State) : Prop :=
  match Model.meshes m !! mi with
  | None => MeshIndexOutOfRange mi (Animation.name a) ∈ log st
  | Some mesh =>
      ∀ li l, Mesh.links mesh !! li = Some l → skipped_link m l = true →
              ∃ msg, skip_message a fi li msg ∧ msg ∈ log st
  end.

(** The log only grows. *)
Definition log_grows (st st' : State) : Prop :=
  ∀ msg, msg ∈ log st → msg ∈ log st'.

(** run.py, lines 82-98: the option [--animation k] keeps one animation
    of the model; [None] is the return after the error message. *)
Definition select_animation (k : Z) (m : Model.t) : option Model.t :=
  if ((k <? 0) || (Z.of_nat (length (Model.animations m)) <=? k))%Z then None
  else
    selected_animation ← Model.animations m !! Z.to_nat k;
    Some (Model.mk (Model.name m) (Model.materials m) (Model.meshes m)
            [selected_animation] (Model.triangle_data m)
            (Model.points_data m) (Model.texture_coordinates_data m)).

(** ** More sample models *)

Module Cases.

Definition hair : Material.t :=
  Material.mk (NameBytes (blit "hair")) (NameBytes (blit "tex\hair.tga")).

(** Two materials and two meshes: a link of each material in the first
    mesh, and in the second a link that names a material the model does
    not have.  The second animation shows both meshes. *)
Definition mixed : Model.t :=
  Model.mk (NameBytes (blit "mixed")) [Samples.skin; hair]
    [Mesh.mk [MeshLink.mk 0 0 0 0; MeshLink.mk 1 1 1 1];
     Mesh.mk [MeshLink.mk 5 0 0 0]]
    [Animation.mk (NameBytes (blit "idle")) [0];
     Animation.mk (NameBytes (blit "walk")) [1; 0]]
    [[0; 1; 2]%N; [0; 1; 2; 2; 3; 4]%N]
    [Samples.triangle; Samples.five_points]
    [[(0, 0); (1, 0); (0, 1)]%float; Samples.three_uv].

(** The two links of the first mesh of [mixed], bound to one material. *)
Definition small_link : MeshLink.t := MeshLink.mk 0 0 0 0.
Definition large_link : MeshLink.t := MeshLink.mk 0 1 1 1.

(** The state after one link, from the start of a run. *)
Definition after_link (m : Model.t) (li : nat) (l : MeshLink.t) : State :=
  default (initial_state m)
    (process_link LittleEndian.pack_f LittleEndian.pack_I
       Samples.idle_animation 0 0 li l (initial_state m)).

Definition first_node (m : Model.t) : Node.t :=
  default (Node.mk 0 []) (head (nodes (Samples.final m))).

Definition first_mesh (m : Model.t) : GMesh.t :=
  default (GMesh.mk []) (head (meshes (Samples.final m))).

Definition first_primitive (m : Model.t) : Primitive.t :=
  default (Primitive.mk 0 0 0 0) (head (GMesh.primitives (first_mesh m))).

(** What [analyze_material_usage] returns, and the entry of a material. *)
Definition analysis (m : Model.t) : gmap nat Usage.t * list UsageMessage :=
  default (∅, []) (analyze_material_usage m).

Definition usage_of (m : Model.t) (k : nat) : Usage.t :=
  default (Usage.mk ∅ ∅ ∅) ((analysis m).1 !! k).

(** The model [--animation k] leaves. *)
Definition only (k : Z) (m : Model.t) : Model.t :=
  default m (select_animation k m).

End Cases.

(** * Properties *)

(** ** The comparison of floats *)

Module FloatOrder.




Lemma SFcompare_antisym a b : SFcompare b a = CompOpp <$> SFcompare a b.
Proof.
  destruct a as [sa|sa| |sa ma ea], b as [sb|sb| |sb mb eb]; simpl; try done;
    try (destruct sa; done); try (destruct sb; done);
    try (destruct sa, sb; done).
  change (Pos.compare_cont Eq) with Pos.compare.
  rewrite (Z.compare_antisym ea eb). rewrite (Pos.compare_antisym ma mb).
  destruct sa, sb, (ea ?= eb)%Z, (ma ?= mb)%positive; done.
Qed.



Lemma ltb_irrefl (x : float) : (x <? x)%float = false.
Proof.
  rewrite FloatAxioms.ltb_spec. unfold SFltb.
  pose proof (SFcompare_antisym (Prim2SF x) (Prim2SF x)) as H.
  destruct (SFcompare (Prim2SF x) (Prim2SF x)) as [[]|]; done.
Qed.





End FloatOrder.

(** ** One link *)

(** Case analysis on the first computation of a sequence that succeeded. *)
Ltac inv_bind H :=
  match type of H with
  | (?m ≫= _) = Some _ =>
      let E := fresh "E" in
      destruct m eqn:E; cbn [mbind option_bind] in H; [|discriminate H]
  end.

(** Reading a field of a state that is written out. *)
Ltac proj_state :=
  cbn [model nodes meshes accessors materials vertex_byte_array
       index_byte_array anim_name_indexer log print set_model
       set_anim_name_indexer] in *.

Section Properties.

Variable pack_f : float → option (list byte).
Variable pack_I : N → option (list byte).

Local Abbreviation plink := (process_link pack_f pack_I).
Local Abbreviation pframe := (process_frame pack_f pack_I).
Local Abbreviation panimation := (process_animation pack_f pack_I).
Local Abbreviation pemit := (emit_link pack_f pack_I).
Local Abbreviation export := (export_to_gltf pack_f pack_I).

Lemma reconcile_uv_eq (uv : list Vec2) n : length uv = n → reconcile_uv uv n = uv.
Proof.
  intros <-. unfold reconcile_uv. rewrite Nat.sub_diag. simpl.
  rewrite app_nil_r. apply firstn_all.
Qed.

Lemma reconcile_uv_short (uv : list Vec2) n :
  length uv < n →
  reconcile_uv uv n = uv ++ replicate (n - length uv) (0, 0)%float.
Proof.
  intros H. unfold reconcile_uv. apply take_ge.
  rewrite length_app, length_replicate. lia.
Qed.

Lemma reconcile_uv_long (uv : list Vec2) n :
  n < length uv → reconcile_uv uv n = take n uv.
Proof.
  intros H. unfold reconcile_uv.
  replace (n - length uv) with 0 by lia. simpl. by rewrite app_nil_r.
Qed.

Lemma length_reconcile_uv (uv : list Vec2) n : length (reconcile_uv uv n) = n.
Proof.
  unfold reconcile_uv. rewrite length_take, length_app, length_replicate. lia.
Qed.

(** Padding does not change what a link of [n] vertices gets. *)
Lemma reconcile_uv_padded original current n :
  padded original current → reconcile_uv current n = reconcile_uv original n.
Proof.
  intros [k ->]. unfold reconcile_uv.
  rewrite length_app, length_replicate, <- app_assoc, <- replicate_add.
  destruct (decide (n ≤ length original)) as [Hle|Hgt].
  - rewrite !take_app_le by done. done.
  - rewrite !take_app_ge by lia. f_equal.
    rewrite !take_replicate. f_equal. lia.
Qed.

Lemma resolve_link_skipped a fi li l st :
  skipped_link (model st) l = true →
  ∃ msg, skip_message a fi li msg
         ∧ resolve_link a fi li l st = Skip (print msg st).
Proof.
  unfold skipped_link, resolve_link, skip_message. intros H.
  destruct (Model.triangle_data (model st) !! MeshLink.triangles l)
    as [tris|]; [|eauto].
  destruct (Model.points_data (model st) !! MeshLink.points l)
    as [pts|]; [|eauto].
  destruct (Model.texture_coordinates_data (model st)
              !! MeshLink.texture_coordinates l) as [uv|]; [|eauto].
  destruct pts as [|p pts]; [eauto|].
  destruct tris as [|t tris]; [eauto 6|]. done.
Qed.

Lemma resolve_link_ready a fi li l st :
  skipped_link (model st) l = false →
  ∃ tris pts uv st1,
    Model.triangle_data (model st) !! MeshLink.triangles l = Some tris
    ∧ Model.points_data (model st) !! MeshLink.points l = Some pts
    ∧ Model.texture_coordinates_data (model st)
        !! MeshLink.texture_coordinates l = Some uv
    ∧ pts ≠ [] ∧ tris ≠ []
    ∧ resolve_link a fi li l st
      = Ready st1 tris (map transform_point pts) (reconcile_uv uv (length pts))
    ∧ same_document st1 st
    ∧ anim_name_indexer st1 = anim_name_indexer st
    ∧ model st1 = model_after (model st) l uv (length pts)
    ∧ (∀ msg, msg ∈ log st → msg ∈ log st1).
Proof.
  unfold skipped_link, resolve_link, model_after. intros H.
  destruct (Model.triangle_data (model st) !! MeshLink.triangles l)
    as [tris|]; [|done].
  destruct (Model.points_data (model st) !! MeshLink.points l)
    as [pts|]; [|done].
  destruct (Model.texture_coordinates_data (model st)
              !! MeshLink.texture_coordinates l) as [uv|]; [|done].
  destruct pts as [|p pts]; [done|].
  destruct tris as [|t tris]; [done|].
  exists (t :: tris), (p :: pts), uv.
  simpl. rewrite !length_map.
  destruct (length uv =? S (length pts)) eqn:Eeq; simpl.
  - apply Nat.eqb_eq in Eeq.
    replace (length uv <? S (length pts)) with false
      by (symmetry; apply Nat.ltb_ge; lia).
    exists st. rewrite reconcile_uv_eq by done.
    unfold same_document. done.
  - apply Nat.eqb_neq in Eeq.
    destruct (length uv <? S (length pts)) eqn:Elt.
    + apply Nat.ltb_lt in Elt. rewrite reconcile_uv_short by done.
      eexists. simpl. unfold same_document. simpl.
      repeat split; try done. intros msg Hm. apply elem_of_app. by left.
    + apply Nat.ltb_ge in Elt. rewrite reconcile_uv_long by lia.
      eexists. simpl. unfold same_document. simpl.
      repeat split; try done. intros msg Hm. apply elem_of_app. by left.
Qed.


Lemma process_link_skip' a ai fi li l st :
  skipped_link (model st) l = true →
  ∃ msg, skip_message a fi li msg
         ∧ plink a ai fi li l st = Some (print msg st).
Proof.
  intros H. destruct (resolve_link_skipped a fi li l st H) as (msg & Hm & E).
  exists msg. split; [done|]. unfold process_link. by rewrite E.
Qed.

Lemma process_link_skip a ai fi li l st :
  skipped_link (model st) l = true →
  ∃ msg, plink a ai fi li l st = Some (print msg st).
Proof.
  intros H. destruct (process_link_skip' a ai fi li l st H) as (msg & _ & E).
  by exists msg.
Qed.

(** What a successful [emit_link] has appended. *)
Lemma emit_link_Some a ai fi li l st tris vs tcs st' :
  pemit a ai fi li l st tris vs tcs = Some st' →
  ∃ pos uvb idx mins maxs,
    pack_all pack_f (concat (map vec3_values vs)) = Some pos
    ∧ pack_all pack_f (concat (map vec2_values tcs)) = Some uvb
    ∧ pack_all pack_I tris = Some idx
    ∧ mapM (λ i, py_min (map (itemgetter i) vs)) [0; 1; 2] = Some mins
    ∧ mapM (λ i, py_max (map (itemgetter i) vs)) [0; 1; 2] = Some maxs
    ∧ model st' = model st
    ∧ nodes st' = nodes st ++
        [Node.mk (length (meshes st))
           (node_name (decode_name (Animation.name a)) ai fi
              (material_name_of (model st) (bound_material (model st) l)))]
    ∧ meshes st' = meshes st ++
        [GMesh.mk [Primitive.mk (length (accessors st))
                     (length (accessors st) + 1) (length (accessors st) + 2)
                     (bound_material (model st) l)]]
    ∧ accessors st' = accessors st ++
        [Accessor.mk 0 (length (vertex_byte_array st)) FLOAT (length vs) VEC3
           (Some mins) (Some maxs);
         Accessor.mk 0 (length (vertex_byte_array st) + length pos) FLOAT
           (length tcs) VEC2 None None;
         Accessor.mk 1 (length (index_byte_array st)) UNSIGNED_INT
           (length tris) SCALAR None None]
    ∧ materials st' = materials st
    ∧ vertex_byte_array st' = vertex_byte_array st ++ pos ++ uvb
    ∧ index_byte_array st' = index_byte_array st ++ idx
    ∧ anim_name_indexer st' = anim_name_indexer st
    ∧ log st' =
        if length (Model.materials (model st)) <=? MeshLink.material l
        then log st ++ [InvalidMaterialIndex (MeshLink.material l)
                          (Animation.name a) fi li]
        else log st.
Proof.
  unfold emit_link, bound_material. intros H.
  do 5 inv_bind H.
  do 5 eexists. repeat (split; [eassumption|]).
  destruct (length (Model.materials (model st)) <=? MeshLink.material l);
    injection H as <-; proj_state; repeat split; try done;
    rewrite ?length_app; cbn [length];
    rewrite <- ?(app_assoc (accessors st)),
            <- ?(app_assoc (vertex_byte_array st));
    rewrite <- ?Nat.add_assoc; done.
Qed.


Lemma model_after_materials m l uv n :
  Model.materials (model_after m l uv n) = Model.materials m.
Proof. unfold model_after. by destruct (length uv <? n). Qed.

Lemma process_link_emitted a ai fi li l st st' :
  skipped_link (model st) l = false →
  plink a ai fi li l st = Some st' →
  ∃ tris pts uv pos uvb idx mins maxs,
    emission pack_f pack_I a ai fi li l st st' tris pts uv pos uvb idx mins maxs.
Proof.
  intros Hs H.
  destruct (resolve_link_ready a fi li l st Hs)
    as (tris & pts & uv & st1 & Ht & Hp & Hu & Hpne & Htne & Hr & Hdoc
        & Hix & Hm & Hlog).
  unfold process_link in H. rewrite Hr in H.
  apply emit_link_Some in H
    as (pos & uvb & idx & mins & maxs & Hpos & Huvb & Hidx & Hmins & Hmaxs
        & Em & En & Eme & Ea & Ema & Ev & Ei & Ex & El).
  destruct Hdoc as (Dn & Dme & Da & Dma & Dv & Di).
  exists tris, pts, uv, pos, uvb, idx, mins, maxs.
  assert (Hmat : Model.materials (model st1) = Model.materials (model st))
    by (rewrite Hm; apply model_after_materials).
  assert (Hbound : bound_material (model st1) l = bound_material (model st) l)
    by (unfold bound_material; by rewrite Hmat).
  assert (Hname : ∀ k, material_name_of (model st1) k
                       = material_name_of (model st) k)
    by (intros k; unfold material_name_of; by rewrite Hmat).
  rewrite length_map, length_reconcile_uv in Ea.
  split; try done.
  - by rewrite Em.
  - by rewrite En, Dn, Dme, Hbound, Hname.
  - by rewrite Eme, Dme, Da, Hbound.
  - by rewrite Ea, Da, Dv, Di.
  - by rewrite Ema.
  - by rewrite Ev, Dv.
  - by rewrite Ei, Di.
  - by rewrite Ex.
  - intros msg Hin%Hlog. rewrite El.
    destruct (length (Model.materials (model st1)) <=? MeshLink.material l);
      [apply elem_of_app; by left|done].
  - intros Hle. rewrite El, Hmat.
    replace (length (Model.materials (model st)) <=? MeshLink.material l)
      with true by (symmetry; by apply Nat.leb_le).
    apply elem_of_app. right. by apply list_elem_of_singleton.
Qed.


(** ** The loops *)

Lemma for_enumerate_inv {A St : Type} (body : nat → A → St → option St)
    (P : St → Prop) (l : list A) :
  ∀ i0 st st',
    (∀ k x s s', l !! k = Some x → P s → body (i0 + k) x s = Some s' → P s') →
    P st → for_enumerate body i0 l st = Some st' → P st'.
Proof.
  induction l as [|x l IH]; intros i0 st st' Hbody HP H; simpl in H.
  - by injection H as <-.
  - destruct (body i0 x st) as [s1|] eqn:E; [|done].
    apply (IH (S i0) s1 st'); [| |done].
    + intros k y s s' Hk Hs Hb. apply (Hbody (S k) y s s'); [done|done|].
      by rewrite Nat.add_succ_r.
    + apply (Hbody 0 x st s1); [done|done|]. by rewrite Nat.add_0_r.
Qed.

Lemma for_enumerate_app {A St : Type} (body : nat → A → St → option St)
    (l1 l2 : list A) :
  ∀ i0 st,
    for_enumerate body i0 (l1 ++ l2) st
    = for_enumerate body i0 l1 st ≫= for_enumerate body (i0 + length l1) l2.
Proof.
  induction l1 as [|x l1 IH]; intros i0 st; simpl.
  - by rewrite Nat.add_0_r.
  - destruct (body i0 x st) as [s1|]; [|done].
    rewrite IH. by rewrite Nat.add_succ_r.
Qed.

(** ** The model object during a run *)

Lemma model_inv_initial m : model_inv m (initial_state m).
Proof.
  split; try done. simpl. apply Forall2_same_length_lookup_2; [done|].
  intros i x y Hx Hy. assert (x = y) as -> by congruence.
  exists 0. simpl. by rewrite app_nil_r.
Qed.

Lemma model_inv_same_model m st st' :
  model st' = model st → model_inv m st → model_inv m st'.
Proof. intros E [? ? ? ? ? ? ?]. split; by rewrite E. Qed.

Lemma model_inv_after m st st' l uv n :
  Model.texture_coordinates_data (model st)
    !! MeshLink.texture_coordinates l = Some uv →
  model st' = model_after (model st) l uv n →
  model_inv m st → model_inv m st'.
Proof.
  intros Hu E Hinv. unfold model_after in E.
  destruct (length uv <? n); [|by apply (model_inv_same_model m st)].
  destruct Hinv as [? ? ? ? ? ? Huv].
  split; rewrite E; simpl; try done.
  destruct (Forall2_lookup_r _ _ _ _ _ Huv Hu) as (orig & Ho & [k ->]).
  rewrite <- (list_insert_id _ _ _ Ho).
  apply Forall2_insert; [done|].
  exists (k + (n - length (orig ++ replicate k (0, 0)%float))).
  by rewrite <- app_assoc, <- replicate_add.
Qed.

Lemma process_link_inv m a ai fi li l st st' :
  model_inv m st → plink a ai fi li l st = Some st' → model_inv m st'.
Proof.
  intros Hinv H. destruct (skipped_link (model st) l) eqn:Hs.
  - destruct (process_link_skip a ai fi li l st Hs) as [msg E].
    rewrite E in H. injection H as <-. by apply (model_inv_same_model m st).
  - destruct (process_link_emitted _ _ _ _ _ _ _ Hs H)
      as (tris & pts & uv & pos & uvb & idx & mins & maxs & Hem).
    eapply model_inv_after; [apply (em_uv _ _ _ _ _ _ _ _ _ _ _ _ _ _ _ _ _ Hem)
                            |apply (em_model _ _ _ _ _ _ _ _ _ _ _ _ _ _ _ _ _ Hem)
                            |done].
Qed.

Lemma process_frame_inv m a ai fi mi st st' :
  model_inv m st → pframe a ai fi mi st = Some st' → model_inv m st'.
Proof.
  intros Hinv H. unfold process_frame in H.
  destruct (Model.meshes (model st) !! mi) as [mesh|].
  - eapply (for_enumerate_inv _ (model_inv m)); [|done|done].
    intros k l s s' _ Hs Hk. by eapply process_link_inv.
  - injection H as <-. by apply (model_inv_same_model m st).
Qed.

Lemma process_animation_inv m ai a st st' :
  model_inv m st → panimation ai a st = Some st' → model_inv m st'.
Proof.
  intros Hinv H. unfold process_animation in H.
  eapply (for_enumerate_inv _ (model_inv m)); [| |done].
  - intros k mi s s' _ Hs Hk. by eapply process_frame_inv.
  - by apply (model_inv_same_model m st).
Qed.

Lemma export_inv m st : export m = Some st → model_inv m st.
Proof.
  intros H. eapply (for_enumerate_inv _ (model_inv m)); [| |done].
  - intros k a s s' _ Hs Hk. by eapply process_animation_inv.
  - apply model_inv_initial.
Qed.

Lemma skipped_link_inv m st l :
  model_inv m st → skipped_link (model st) l = skipped_link m l.
Proof.
  intros [_ _ _ _ Ht Hp Huv]. unfold skipped_link. rewrite Ht, Hp.
  destruct (Model.triangle_data m !! MeshLink.triangles l); [|done].
  destruct (Model.points_data m !! MeshLink.points l); [|done].
  destruct (Model.texture_coordinates_data m !! MeshLink.texture_coordinates l)
    as [orig|] eqn:Eo.
  - destruct (Forall2_lookup_l _ _ _ _ _ Huv Eo) as (cur & -> & _). done.
  - apply lookup_ge_None in Eo. rewrite (Forall2_length _ _ _ Huv) in Eo.
    apply lookup_ge_None in Eo. by rewrite Eo.
Qed.


(** ** A link that is emitted *)

Lemma emit_link_total a ai fi li l st tris vs tcs pos uvb idx :
  vs ≠ [] →
  pack_all pack_f (concat (map vec3_values vs)) = Some pos →
  pack_all pack_f (concat (map vec2_values tcs)) = Some uvb →
  pack_all pack_I tris = Some idx →
  is_Some (pemit a ai fi li l st tris vs tcs).
Proof.
  intros Hne Hp Hu Hi. unfold emit_link. rewrite Hp, Hu, Hi.
  destruct vs as [|v vs]; [done|]. simpl.
  destruct (length (Model.materials (model st)) <=? MeshLink.material l); eauto.
Qed.

Lemma model_inv_lookup_uv m st i uv0 :
  model_inv m st →
  Model.texture_coordinates_data m !! i = Some uv0 →
  ∃ uvc, Model.texture_coordinates_data (model st) !! i = Some uvc
         ∧ padded uv0 uvc.
Proof. intros Hinv H. eapply Forall2_lookup_l; [apply (inv_uv _ _ Hinv)|done]. Qed.

(** A link that is not skipped is emitted exactly when [struct.pack] does
    not raise on its data, and then it appends the bytes [link_bytes]
    computes from the decoded model. *)
Lemma process_link_total m a ai fi li l st pos uvb idx :
  model_inv m st →
  skipped_link m l = false →
  link_bytes pack_f pack_I m l = Some (pos, uvb, idx) →
  ∃ st' tris pts uvc mins maxs,
    plink a ai fi li l st = Some st'
    ∧ Model.points_data m !! MeshLink.points l = Some pts
    ∧ emission pack_f pack_I a ai fi li l st st' tris pts uvc pos uvb idx mins maxs.
Proof.
  intros Hinv Hs Hb.
  rewrite <- (skipped_link_inv m st l Hinv) in Hs.
  destruct (resolve_link_ready a fi li l st Hs)
    as (tris & pts & uvc & st1 & Ht & Hp & Hu & Hpne & Htne & Hr & _).
  unfold link_bytes in Hb. do 6 inv_bind Hb. injection Hb as -> -> ->.
  rewrite (inv_triangles _ _ Hinv) in Ht. rewrite (inv_points _ _ Hinv) in Hp.
  assert (l0 = tris) as -> by congruence.
  assert (l1 = pts) as -> by congruence.
  destruct (model_inv_lookup_uv m st _ _ Hinv E1) as (uvc' & Hu' & Hpad).
  assert (uvc' = uvc) as -> by congruence.
  rewrite <- (reconcile_uv_padded _ _ _ Hpad) in E3.
  destruct (emit_link_total a ai fi li l st1 tris (map transform_point pts)
              (reconcile_uv uvc (length pts)) pos uvb idx) as [st' Hst'];
    try done.
  { by destruct pts. }
  assert (Hpl : plink a ai fi li l st = Some st')
    by (unfold process_link; by rewrite Hr).
  destruct (process_link_emitted _ _ _ _ _ _ _ Hs Hpl)
    as (tris' & pts' & uv' & pos' & uvb' & idx' & mins & maxs & Hem).
  pose proof Hem as [Ht2 Hp2 Hu2 _ _ Hpos2 Huvb2 Hidx2 _ _ _ _ _ _ _ _ _ _ _ _].
  rewrite (inv_triangles _ _ Hinv) in Ht2.
  rewrite (inv_points _ _ Hinv) in Hp2.
  assert (tris' = tris) as -> by congruence.
  assert (pts' = pts) as -> by congruence.
  assert (uv' = uvc) as -> by congruence.
  assert (pos' = pos) as -> by congruence.
  assert (uvb' = uvb) as -> by congruence.
  assert (idx' = idx) as -> by congruence.
  by exists st', tris, pts, uvc, mins, maxs.
Qed.



(** The accessors, the primitive and the stream slices of an emitted link. *)
Lemma emission_view a ai fi li l st st' tris pts uvc pos uvb idx mins maxs :
  emission pack_f pack_I a ai fi li l st st' tris pts uvc pos uvb idx mins maxs →
  position_accessor st st'
    = Some (Accessor.mk 0 (length (vertex_byte_array st)) FLOAT (length pts)
              VEC3 (Some mins) (Some maxs))
  ∧ uv_accessor st st'
    = Some (Accessor.mk 0 (length (vertex_byte_array st) + length pos) FLOAT
              (length pts) VEC2 None None)
  ∧ position_bytes st st' = Some pos
  ∧ uv_bytes st st' = Some uvb
  ∧ emitted_primitive st st'
    = Some (Primitive.mk (length (accessors st)) (length (accessors st) + 1)
              (length (accessors st) + 2) (bound_material (model st) l))
  ∧ length (nodes st') = S (length (nodes st)).
Proof.
  intros Hem.
  assert (Hp : position_accessor st st'
    = Some (Accessor.mk 0 (length (vertex_byte_array st)) FLOAT (length pts)
              VEC3 (Some mins) (Some maxs))).
  { unfold position_accessor. rewrite (em_accessors _ _ _ _ _ _ _ _ _ _ _ _ _ _ _ _ _ Hem).
    by apply list_lookup_middle. }
  assert (Ht : uv_accessor st st'
    = Some (Accessor.mk 0 (length (vertex_byte_array st) + length pos) FLOAT
              (length pts) VEC2 None None)).
  { unfold uv_accessor. rewrite (em_accessors _ _ _ _ _ _ _ _ _ _ _ _ _ _ _ _ _ Hem).
    rewrite lookup_app_r by lia.
    by replace (S (length (accessors st)) - length (accessors st)) with 1 by lia. }
  repeat split; try done.
  - unfold position_bytes. rewrite Hp, Ht. simpl.
    rewrite (em_vertex_bytes _ _ _ _ _ _ _ _ _ _ _ _ _ _ _ _ _ Hem).
    rewrite drop_app_length.
    replace (length (vertex_byte_array st) + length pos
             - length (vertex_byte_array st)) with (length pos) by lia.
    by rewrite take_app_length.
  - unfold uv_bytes. rewrite Ht. simpl.
    rewrite (em_vertex_bytes _ _ _ _ _ _ _ _ _ _ _ _ _ _ _ _ _ Hem).
    rewrite app_assoc. rewrite <- length_app. by rewrite drop_app_length.
  - unfold emitted_primitive.
    rewrite (em_meshes _ _ _ _ _ _ _ _ _ _ _ _ _ _ _ _ _ Hem).
    rewrite list_lookup_middle by done. done.
  - rewrite (em_nodes _ _ _ _ _ _ _ _ _ _ _ _ _ _ _ _ _ Hem).
    rewrite length_app. simpl. lia.
Qed.

(** C10: a link that is skipped (a pool index out of range, or an empty
    points or triangles array) leaves the vertex stream, the index stream
    and the lists of accessors, meshes and nodes as they were; the model
    is untouched too, and one message is printed. *)
Theorem skipped_link_is_atomic a ai fi li l st :
  skipped_link (model st) l = true →
  ∃ st' msg,
    plink a ai fi li l st = Some st'
    ∧ skip_message a fi li msg
    ∧ vertex_byte_array st' = vertex_byte_array st
    ∧ index_byte_array st' = index_byte_array st
    ∧ accessors st' = accessors st
    ∧ meshes st' = meshes st
    ∧ nodes st' = nodes st
    ∧ model st' = model st
    ∧ log st' = log st ++ [msg].
Proof.
  intros Hs. destruct (process_link_skip' a ai fi li l st Hs) as (msg & Hm & E).
  exists (print msg st), msg. by rewrite E.
Qed.

(** C9: two emitted links that name the same entry of the points pool
    append the same bytes for their transformed vertices, whatever the
    animations, the frames and the states they are emitted in. *)
Theorem shared_points_same_bytes m a1 ai1 fi1 li1 l1 st1 a2 ai2 fi2 li2 l2 st2 :
  model_inv m st1 → model_inv m st2 →
  skipped_link m l1 = false → skipped_link m l2 = false →
  is_Some (link_bytes pack_f pack_I m l1) →
  is_Some (link_bytes pack_f pack_I m l2) →
  MeshLink.points l1 = MeshLink.points l2 →
  ∃ st1' st2' bytes,
    plink a1 ai1 fi1 li1 l1 st1 = Some st1'
    ∧ plink a2 ai2 fi2 li2 l2 st2 = Some st2'
    ∧ position_bytes st1 st1' = Some bytes
    ∧ position_bytes st2 st2' = Some bytes.
Proof.
  intros Hinv1 Hinv2 Hs1 Hs2 [[[pos1 uvb1] idx1] Hb1] [[[pos2 uvb2] idx2] Hb2] Hpts.
  destruct (process_link_total m a1 ai1 fi1 li1 l1 st1 _ _ _ Hinv1 Hs1 Hb1)
    as (st1' & tris1 & pts1 & uvc1 & mins1 & maxs1 & H1 & Hp1 & Hem1).
  destruct (process_link_total m a2 ai2 fi2 li2 l2 st2 _ _ _ Hinv2 Hs2 Hb2)
    as (st2' & tris2 & pts2 & uvc2 & mins2 & maxs2 & H2 & Hp2 & Hem2).
  rewrite Hpts in Hp1. assert (pts1 = pts2) as -> by congruence.
  pose proof (em_pos _ _ _ _ _ _ _ _ _ _ _ _ _ _ _ _ _ Hem1) as Hpos1.
  pose proof (em_pos _ _ _ _ _ _ _ _ _ _ _ _ _ _ _ _ _ Hem2) as Hpos2.
  assert (pos1 = pos2) as -> by congruence.
  exists st1', st2', pos2. repeat split; try done.
  - by apply emission_view in Hem1 as (_ & _ & ? & _).
  - by apply emission_view in Hem2 as (_ & _ & ? & _).
Qed.




(** C4: an emitted link whose texture coordinates are fewer or more than
    its points is emitted all the same, and its texture-coordinate accessor
    has one entry per vertex: the entries of the pool as decoded, followed
    by [(0, 0)] entries when they are too few, cut when they are too many. *)
Theorem uv_reconciled m a ai fi li l st pts uv :
  model_inv m st →
  skipped_link m l = false →
  is_Some (link_bytes pack_f pack_I m l) →
  Model.points_data m !! MeshLink.points l = Some pts →
  Model.texture_coordinates_data m !! MeshLink.texture_coordinates l = Some uv →
  ∃ st' acc tcs bytes,
    plink a ai fi li l st = Some st'
    ∧ length (nodes st') = S (length (nodes st))
    ∧ uv_accessor st st' = Some acc
    ∧ Accessor.type acc = VEC2
    ∧ Accessor.count acc = length pts
    ∧ uv_bytes st st' = Some bytes
    ∧ pack_all pack_f (concat (map vec2_values tcs)) = Some bytes
    ∧ length tcs = length pts
    ∧ (length uv ≤ length pts →
       tcs = uv ++ replicate (length pts - length uv) (0, 0)%float)
    ∧ (length pts ≤ length uv → tcs = take (length pts) uv).
Proof.
  intros Hinv Hs [[[pos uvb] idx] Hb] Hp Hu.
  destruct (process_link_total m a ai fi li l st _ _ _ Hinv Hs Hb)
    as (st' & tris & pts' & uvc & mins & maxs & H & Hp' & Hem).
  assert (pts' = pts) as -> by congruence.
  destruct (emission_view _ _ _ _ _ _ _ _ _ _ _ _ _ _ _ Hem)
    as (_ & Hacc & _ & Hbytes & _ & Hnodes).
  destruct (model_inv_lookup_uv m st _ _ Hinv Hu) as (uvc' & Hu' & Hpad).
  pose proof (em_uv _ _ _ _ _ _ _ _ _ _ _ _ _ _ _ _ _ Hem) as Hu2.
  assert (uvc' = uvc) as -> by congruence.
  pose proof (em_uvb _ _ _ _ _ _ _ _ _ _ _ _ _ _ _ _ _ Hem) as Huvb.
  rewrite (reconcile_uv_padded _ _ _ Hpad) in Huvb.
  eexists st', _, (reconcile_uv uv (length pts)), uvb.
  repeat split; try done.
  - apply length_reconcile_uv.
  - intros Hle. destruct (decide (length uv = length pts)) as [E|E].
    + rewrite reconcile_uv_eq by done. rewrite E, Nat.sub_diag. simpl.
      by rewrite app_nil_r.
    + apply reconcile_uv_short. lia.
  - intros Hle. destruct (decide (length uv = length pts)) as [E|E].
    + rewrite reconcile_uv_eq by done. rewrite <- E. by rewrite firstn_all.
    + apply reconcile_uv_long. lia.
Qed.

(** C6, as amended: a link whose material index is not below the number of
    materials is emitted like any other, its primitive is bound to
    material 0 and a message is printed; that reference is in range
    exactly when the model has a material at all. *)
Theorem out_of_range_material_falls_back m a ai fi li l st :
  model_inv m st →
  skipped_link m l = false →
  is_Some (link_bytes pack_f pack_I m l) →
  length (Model.materials m) ≤ MeshLink.material l →
  ∃ st' p,
    plink a ai fi li l st = Some st'
    ∧ emitted_primitive st st' = Some p
    ∧ Primitive.material p = 0
    ∧ InvalidMaterialIndex (MeshLink.material l) (Animation.name a) fi li
        ∈ log st'
    ∧ (Primitive.material p < length (Model.materials m)
       ↔ Model.materials m ≠ []).
Proof.
  intros Hinv Hs [[[pos uvb] idx] Hb] Hle.
  destruct (process_link_total m a ai fi li l st _ _ _ Hinv Hs Hb)
    as (st' & tris & pts & uvc & mins & maxs & H & Hp & Hem).
  destruct (emission_view _ _ _ _ _ _ _ _ _ _ _ _ _ _ _ Hem)
    as (_ & _ & _ & _ & Hprim & _).
  assert (Hbound : bound_material (model st) l = 0).
  { unfold bound_material. rewrite (inv_materials _ _ Hinv).
    by replace (length (Model.materials m) <=? MeshLink.material l)
      with true by (symmetry; by apply Nat.leb_le). }
  rewrite Hbound in Hprim.
  eexists st', _. split_and!; try done.
  - apply (em_log_material _ _ _ _ _ _ _ _ _ _ _ _ _ _ _ _ _ Hem).
    by rewrite (inv_materials _ _ Hinv).
  - simpl. split.
    + intros Hlt E. rewrite E in Hlt. simpl in Hlt. lia.
    + intros Hne. destruct (Model.materials m); [done|simpl; lia].
Qed.


(** ** Whole runs *)

Lemma bound_material_inv m st l :
  model_inv m st → bound_material (model st) l = bound_material m l.
Proof. intros Hinv. unfold bound_material. by rewrite (inv_materials _ _ Hinv). Qed.

Lemma material_name_of_inv m st k :
  model_inv m st → material_name_of (model st) k = material_name_of m k.
Proof. intros Hinv. unfold material_name_of. by rewrite (inv_materials _ _ Hinv). Qed.

(** The nodes one link adds: none when it is skipped, one otherwise. *)
Lemma process_link_nodes m a ai fi li l st st' :
  model_inv m st →
  plink a ai fi li l st = Some st' →
  nodes st' = nodes st ++
    if skipped_link m l then []
    else [Node.mk (length (meshes st))
            (node_name (decode_name (Animation.name a)) ai fi
               (material_name_of m (bound_material m l)))].
Proof.
  intros Hinv H. rewrite <- (skipped_link_inv m st l Hinv).
  destruct (skipped_link (model st) l) eqn:Hs.
  - destruct (process_link_skip a ai fi li l st Hs) as [msg E].
    rewrite E in H. injection H as <-. simpl. by rewrite app_nil_r.
  - destruct (process_link_emitted _ _ _ _ _ _ _ Hs H)
      as (tris & pts & uv & pos & uvb & idx & mins & maxs & Hem).
    rewrite (em_nodes _ _ _ _ _ _ _ _ _ _ _ _ _ _ _ _ _ Hem).
    by rewrite (bound_material_inv m st l Hinv), (material_name_of_inv m st _ Hinv).
Qed.

Lemma process_animation_names m ai a st st' :
  Model.animations m !! ai = Some a →
  names_inv m st → panimation ai a st = Some st' → names_inv m st'.
Proof.
  intros Ha Hinv H. unfold process_animation in H.
  eapply (for_enumerate_inv _ (names_inv m)); [| |exact H].
  2: { destruct Hinv as [Hm Hn]. split; [|done].
       by apply (model_inv_same_model m st). }
  clear st st' Hinv H. intros fi mi st st' Hfi [Hm Hn] H. simpl in H.
  unfold process_frame in H. rewrite (inv_meshes _ _ Hm) in H.
  destruct (Model.meshes m !! mi) as [mesh|] eqn:Hmesh.
  2: { injection H as <-. split; [|done]. by apply (model_inv_same_model m st). }
  eapply (for_enumerate_inv _ (names_inv m)); [|by split|exact H].
  clear st st' Hm Hn H. intros li l st st' Hli [Hm Hn] H. simpl in H.
  split; [by eapply process_link_inv|].
  rewrite (process_link_nodes m _ _ _ _ _ _ _ Hm H).
  apply Forall_app. split; [done|].
  destruct (skipped_link m l); [done|].
  apply Forall_singleton. exists ai, a, fi, mi, mesh, l.
  split_and!; try done. by eapply list_elem_of_lookup_2.
Qed.

Lemma for_enumerate_names {A : Type} (body : nat → A → State → option State)
    (F : nat → A → list str) (I : State → Prop) (l : list A) :
  ∀ i0 st st',
    (∀ k x s s', l !! k = Some x → I s → body (i0 + k) x s = Some s' →
       I s' ∧ map Node.name (nodes s')
              = map Node.name (nodes s) ++ F (i0 + k) x) →
    I st → for_enumerate body i0 l st = Some st' →
    I st' ∧ map Node.name (nodes st')
            = map Node.name (nodes st) ++ concat (imap (λ k, F (i0 + k)) l).
Proof.
  induction l as [|x l IH]; intros i0 st st' Hbody HI H; simpl in H.
  - injection H as <-. split; [done|]. simpl. by rewrite app_nil_r.
  - destruct (body i0 x st) as [s1|] eqn:E; [|done].
    destruct (Hbody 0 x st s1 eq_refl HI) as [HI1 Hn1].
    { by rewrite Nat.add_0_r. }
    destruct (IH (S i0) s1 st') as [HI' Hn']; [|done|done|].
    { intros k y s s' Hk Hs Hb.
      replace (S i0 + k) with (i0 + S k) in * by lia.
      by apply (Hbody (S k)). }
    split; [done|]. rewrite Hn', Hn1, imap_cons. cbn [concat].
    rewrite <- !app_assoc. do 2 f_equal. f_equal.
    apply imap_ext. intros k y _. unfold compose. f_equal. lia.
Qed.

Lemma concat_emitted {A B : Type} (skip : A → bool) (f : A → B) (l : list A) :
  concat (map (λ x, if skip x then [] else [f x]) l)
  = map f (filter (λ x, skip x = false) l).
Proof.
  induction l as [|x l IH]; [done|]. cbn [map concat].
  rewrite filter_cons, IH. destruct (skip x) eqn:E.
  - by rewrite decide_False by done.
  - by rewrite decide_True by done.
Qed.

Lemma process_frame_node_names m a ai fi mi st st' :
  model_inv m st → pframe a ai fi mi st = Some st' →
  model_inv m st'
  ∧ map Node.name (nodes st')
    = map Node.name (nodes st) ++ frame_node_names m ai a fi mi.
Proof.
  intros Hinv H. unfold process_frame in H. unfold frame_node_names.
  rewrite (inv_meshes _ _ Hinv) in H.
  destruct (Model.meshes m !! mi) as [mesh|].
  - destruct (for_enumerate_names (plink a ai fi)
                (λ _ l, if skipped_link m l then []
                        else [indexed_name m ai a fi l])
                (model_inv m) (Mesh.links mesh) 0 st st') as [HI Hn];
      [|done|done|].
    + intros li l s s' _ Hs Hb. cbn [Nat.add] in Hb.
      split; [by eapply process_link_inv|].
      rewrite (process_link_nodes m _ _ _ _ _ _ _ Hs Hb), map_app.
      by destruct (skipped_link m l).
    + split; [done|]. rewrite Hn, <- concat_emitted. do 2 f_equal.
      exact (imap_const (λ l, if skipped_link m l then []
                              else [indexed_name m ai a fi l])
               (Mesh.links mesh)).
  - injection H as <-. split; [by apply (model_inv_same_model m st)|].
    simpl. by rewrite app_nil_r.
Qed.

Lemma process_animation_node_names m ai a st st' :
  model_inv m st → panimation ai a st = Some st' →
  model_inv m st'
  ∧ map Node.name (nodes st')
    = map Node.name (nodes st) ++ animation_node_names m ai a.
Proof.
  intros Hinv H. unfold process_animation in H. cbv zeta in H.
  destruct (for_enumerate_names (pframe a ai) (frame_node_names m ai a)
              (model_inv m) (Animation.meshes a) 0
              (set_anim_name_indexer
                 (bump_indexer (decode_name (Animation.name a))
                    (anim_name_indexer st)) st) st') as [HI Hn].
  - intros fi mi s s' _ Hs Hb. by eapply process_frame_node_names.
  - by apply (model_inv_same_model m st).
  - exact H.
  - split; [done|]. exact Hn.
Qed.

Lemma export_node_names m st :
  export m = Some st → map Node.name (nodes st) = node_names m.
Proof.
  intros H.
  destruct (for_enumerate_names panimation (animation_node_names m)
              (model_inv m) (Model.animations m) 0 (initial_state m) st)
    as [_ Hn]; [|apply model_inv_initial|exact H|exact Hn].
  intros ai a s s' _ Hs Hb. by eapply process_animation_node_names.
Qed.

Lemma indexed_name_in_node_names m ai a fi mi mesh l :
  Model.animations m !! ai = Some a →
  Animation.meshes a !! fi = Some mi →
  Model.meshes m !! mi = Some mesh →
  l ∈ Mesh.links mesh →
  skipped_link m l = false →
  indexed_name m ai a fi l ∈ node_names m.
Proof.
  intros Ha Hfi Hmesh Hl Hs.
  assert (Hjoin : ∀ {A} (f : nat → A → list str) (xs : list A) k y x,
             xs !! k = Some y → x ∈ f k y → x ∈ concat (imap f xs)).
  { intros A f xs k y x Hk Hx. apply list_elem_of_In, in_concat.
    exists (f k y). split; apply list_elem_of_In; [|done].
    by apply elem_of_lookup_imap_2. }
  apply (Hjoin _ _ _ ai a); [done|].
  apply (Hjoin _ _ _ fi mi); [done|].
  unfold frame_node_names. rewrite Hmesh.
  apply list_elem_of_fmap. exists l. split; [done|].
  by apply list_elem_of_filter.
Qed.

(** C2, as amended: the names of the nodes are, in order, those of the
    animations one after the other, of their frames one after the other
    and of the links of the frame's mesh that are not skipped, each
    [{animation}_{index:02d}_frame{frame:02d}_{material_name}] cleaned of
    quotes and outer blanks, where [index] is the position of the
    animation in the model (not a counter of the animations of that name)
    and the frame number has two digits.  So every node has such a name,
    and every emitted link of the animation at position [ai] has a node
    whose name carries [ai]: two animations of one name at the positions
    [i] and [j] give names with [i] and with [j]. *)
Theorem node_names_use_animation_index m st :
  export m = Some st →
  map Node.name (nodes st) = node_names m
  ∧ Forall (node_from m) (nodes st)
  ∧ ∀ ai a fi mi mesh l,
      Model.animations m !! ai = Some a →
      Animation.meshes a !! fi = Some mi →
      Model.meshes m !! mi = Some mesh →
      l ∈ Mesh.links mesh →
      skipped_link m l = false →
      ∃ n, n ∈ nodes st ∧ Node.name n = indexed_name m ai a fi l.
Proof.
  intros H. pose proof (export_node_names m st H) as Hnames.
  split_and!; [done| |].
  - enough (names_inv m st) as [_ Hn] by done.
    eapply (for_enumerate_inv _ (names_inv m)); [| |exact H].
    + intros ai a s s' Ha Hs Hb. simpl in Hb.
      by eapply process_animation_names.
    + split; [apply model_inv_initial|]. simpl. by apply Forall_nil.
  - intros ai a fi mi mesh l Ha Hfi Hmesh Hl Hs.
    pose proof (indexed_name_in_node_names m ai a fi mi mesh l
                  Ha Hfi Hmesh Hl Hs) as Hin.
    rewrite <- Hnames in Hin.
    apply list_elem_of_fmap in Hin as (n & Hn & Hin). by exists n.
Qed.


(** *** Frame groups *)

Lemma links_nodes_growth m a ai fi ls :
  ∀ i st st',
    model_inv m st →
    for_enumerate (plink a ai fi) i ls st = Some st' →
    model_inv m st'
    ∧ length (nodes st')
      = length (nodes st) + length (filter (λ l, skipped_link m l = false) ls).
Proof.
  induction ls as [|l ls IH]; intros i st st' Hinv H; simpl in H.
  - injection H as <-. simpl. split; [done|lia].
  - destruct (plink a ai fi i l st) as [s1|] eqn:E; [|done].
    pose proof (process_link_inv m _ _ _ _ _ _ _ Hinv E) as Hinv1.
    destruct (IH _ _ _ Hinv1 H) as [Hinv' Hlen]. split; [done|].
    rewrite Hlen, (process_link_nodes m _ _ _ _ _ _ _ Hinv E), length_app.
    rewrite filter_cons.
    destruct (skipped_link m l); simpl; lia.
Qed.

Lemma existsb_filter (m : Model.t) (ls : list MeshLink.t) :
  existsb (λ l, negb (skipped_link m l)) ls
  = (0 <? length (filter (λ l, skipped_link m l = false) ls)).
Proof.
  induction ls as [|l ls IH]; [done|]. simpl. rewrite filter_cons.
  by destruct (skipped_link m l).
Qed.

Lemma frame_nodes_growth m a ai fi mi st st' :
  model_inv m st →
  pframe a ai fi mi st = Some st' →
  model_inv m st'
  ∧ (length (nodes st) <? length (nodes st')) = frame_emits m mi.
Proof.
  intros Hinv H. unfold process_frame in H. unfold frame_emits.
  rewrite (inv_meshes _ _ Hinv) in H.
  destruct (Model.meshes m !! mi) as [mesh|].
  - destruct (links_nodes_growth m _ _ _ _ _ _ _ Hinv H) as [Hinv' Hlen].
    split; [done|]. rewrite existsb_filter, Hlen.
    destruct (length (filter (λ l, skipped_link m l = false) (Mesh.links mesh))).
    + rewrite Nat.add_0_r. by rewrite Nat.ltb_irrefl.
    + simpl. apply Nat.ltb_lt. lia.
  - injection H as <-. split; [by apply (model_inv_same_model m st)|].
    simpl. by rewrite Nat.ltb_irrefl.
Qed.

Lemma frame_groups_spec m a ai frames :
  ∀ fi st st',
    model_inv m st →
    for_enumerate (pframe a ai) fi frames st = Some st' →
    frame_groups pack_f pack_I a ai fi frames st
    = Some (length (filter (λ mi, frame_emits m mi = true) frames)).
Proof.
  induction frames as [|mi frames IH]; intros fi st st' Hinv H; simpl in *.
  - done.
  - destruct (pframe a ai fi mi st) as [s1|] eqn:E; [|done]. simpl.
    destruct (frame_nodes_growth m _ _ _ _ _ _ Hinv E) as [Hinv1 Hgrow].
    rewrite (IH _ _ _ Hinv1 H). simpl. rewrite Hgrow, filter_cons.
    by destruct (frame_emits m mi).
Qed.

(** C5, as amended: in a run that completes, the frame groups of an
    animation are as many as the entries of its [meshes] that name an
    existing mesh with at least one link that is not skipped; that is at
    most [len(animation.meshes)], and exactly that many when every entry
    is such. *)
Theorem frame_groups_are_emitting_frames m st ai a :
  export m = Some st →
  Model.animations m !! ai = Some a →
  ∃ n,
    animation_frame_groups pack_f pack_I m ai = Some n
    ∧ n = length (filter (λ mi, frame_emits m mi = true) (Animation.meshes a))
    ∧ n ≤ length (Animation.meshes a)
    ∧ (Forall (λ mi, frame_emits m mi = true) (Animation.meshes a) →
       n = length (Animation.meshes a)).
Proof.
  intros H Ha. eexists. split_and!; [|reflexivity| |].
  - unfold animation_frame_groups, state_before. rewrite Ha. simpl.
    unfold export_to_gltf in H.
    rewrite <- (take_drop_middle _ _ _ Ha), for_enumerate_app in H.
    inv_bind H. simpl.
    assert (Hinv : model_inv m s).
    { eapply (for_enumerate_inv _ (model_inv m)); [| |exact E].
      - intros k x s1 s2 _ Hs1 Hk. by eapply process_animation_inv.
      - apply model_inv_initial. }
    rewrite length_take_le in H by (apply Nat.lt_le_incl; by eapply lookup_lt_Some).
    simpl in H.
    destruct (panimation ai a s) as [s1|] eqn:Ea; [|done].
    unfold process_animation in Ea.
    eapply frame_groups_spec; [|exact Ea].
    by apply (model_inv_same_model m s).
  - apply length_filter.
  - intros Hall. f_equal. induction Hall as [|mi mis Hmi _ IH]; [done|].
    rewrite filter_cons_True by done. by rewrite IH.
Qed.


(** *** Two runs side by side *)









Section Isolation.

(** A model [m] whose mesh [k] has the link [bad] between the links [pre]
    and [post], and the same model without that link. *)
Variable m : Model.t.
Variable k : nat.
Variable mesh : Mesh.t.
Variables pre post : list MeshLink.t.
Variable bad : MeshLink.t.
Hypothesis Hmesh : Model.meshes m !! k = Some mesh.
Hypothesis Hlinks : Mesh.links mesh = pre ++ bad :: post.
Hypothesis Hbad : skipped_link m bad = true.

Let m' : Model.t := with_links m k (pre ++ post).






End Isolation.


End Properties.

(** ** Runs on the little-endian platform complete *)

Section Totality.

Local Abbreviation pf := LittleEndian.pack_f.
Local Abbreviation pI := LittleEndian.pack_I.

Lemma for_enumerate_total {A St : Type} (body : nat → A → St → option St)
    (P : St → Prop) (l : list A) :
  ∀ i0 st,
    (∀ k x s, l !! k = Some x → P s → ∃ s', body (i0 + k) x s = Some s' ∧ P s') →
    P st → ∃ st', for_enumerate body i0 l st = Some st' ∧ P st'.
Proof.
  induction l as [|x l IH]; intros i0 st Hbody HP; simpl; [by eauto|].
  destruct (Hbody 0 x st eq_refl HP) as (s1 & E & HP1).
  rewrite Nat.add_0_r in E. rewrite E. apply IH; [|done].
  intros k y s Hk Hs. destruct (Hbody (S k) y s Hk Hs) as (s' & E' & HP').
  exists s'. by rewrite Nat.add_succ_r in E'.
Qed.

Lemma pack_all_f_total l : is_Some (pack_all pf l).
Proof.
  induction l as [|x l [bs IH]]; cbn [pack_all]; [by eauto|].
  rewrite IH. unfold LittleEndian.pack_f. cbn [mbind option_bind]. eauto.
Qed.

Lemma pack_all_I_total l :
  Forall (λ i, (i < 4294967296)%N) l → is_Some (pack_all pI l).
Proof.
  induction 1 as [|x l Hx _ [bs IH]]; cbn [pack_all]; [by eauto|].
  rewrite IH. unfold LittleEndian.pack_I.
  apply N.ltb_lt in Hx. rewrite Hx. cbn [mbind option_bind]. eauto.
Qed.

Lemma link_bytes_total m l :
  indices_fit m → skipped_link m l = false → is_Some (link_bytes pf pI m l).
Proof.
  unfold skipped_link, link_bytes. intros Hfit Hs.
  destruct (Model.triangle_data m !! MeshLink.triangles l) as [tris|] eqn:Et;
    [|done].
  destruct (Model.points_data m !! MeshLink.points l) as [pts|]; [|done].
  destruct (Model.texture_coordinates_data m !! MeshLink.texture_coordinates l)
    as [uv|]; [|done].
  cbn [mbind option_bind].
  destruct (pack_all_f_total
              (concat (map vec3_values (map transform_point pts)))) as [pos ->].
  destruct (pack_all_f_total
              (concat (map vec2_values (reconcile_uv uv (length pts)))))
    as [uvb ->].
  destruct (pack_all_I_total tris) as [idx ->];
    [|cbn [mbind option_bind]; eauto].
  by eapply (Forall_lookup_1 _ _ _ _ Hfit).
Qed.

Lemma process_link_defined m a ai fi li l st :
  indices_fit m → model_inv m st →
  ∃ st', process_link pf pI a ai fi li l st = Some st' ∧ model_inv m st'.
Proof.
  intros Hfit Hinv. destruct (skipped_link m l) eqn:Hs.
  - rewrite <- (skipped_link_inv m st l Hinv) in Hs.
    destruct (process_link_skip pf pI a ai fi li l st Hs) as [msg E].
    exists (print msg st). split; [done|].
    by apply (model_inv_same_model m st).
  - destruct (link_bytes_total m l Hfit Hs) as [[[pos uvb] idx] Hb].
    destruct (process_link_total pf pI m a ai fi li l st _ _ _ Hinv Hs Hb)
      as (st' & _ & _ & _ & _ & _ & E & _).
    exists st'. split; [done|]. by eapply process_link_inv.
Qed.

(** With triangle indices that fit 32 bits no exception escapes the
    serializer: no link, bad reference or mismatch makes the call fail. *)
Lemma export_total m :
  indices_fit m → is_Some (LittleEndian.export_to_gltf m).
Proof.
  intros Hfit.
  destruct (for_enumerate_total (process_animation pf pI) (model_inv m)
              (Model.animations m) 0 (initial_state m)) as (st & E & _);
    [|apply model_inv_initial|by exists st].
  intros ai a s _ Hs. unfold process_animation.
  apply for_enumerate_total; [|by apply (model_inv_same_model m s)].
  intros fi mi s1 _ Hs1. unfold process_frame.
  rewrite (inv_meshes _ _ Hs1).
  destruct (Model.meshes m !! mi) as [mesh|].
  - apply for_enumerate_total; [|done].
    intros li l s2 _ Hs2. by apply process_link_defined.
  - eexists. split; [done|]. by apply (model_inv_same_model m s1).
Qed.

End Totality.

(** * The properties at sample inputs *)

Section Closed.

Local Abbreviation pf := LittleEndian.pack_f.
Local Abbreviation pI := LittleEndian.pack_I.
Local Abbreviation run := LittleEndian.export_to_gltf.

Lemma skipped_link_is_atomic_witness :
  ∃ st' msg,
    process_link pf pI Samples.idle_animation 0 0 1 Samples.bad_link
      (initial_state Samples.bad_middle) = Some st'
    ∧ skip_message Samples.idle_animation 0 1 msg
    ∧ vertex_byte_array st' = vertex_byte_array (initial_state Samples.bad_middle)
    ∧ index_byte_array st' = index_byte_array (initial_state Samples.bad_middle)
    ∧ accessors st' = accessors (initial_state Samples.bad_middle)
    ∧ meshes st' = meshes (initial_state Samples.bad_middle)
    ∧ nodes st' = nodes (initial_state Samples.bad_middle)
    ∧ model st' = model (initial_state Samples.bad_middle)
    ∧ log st' = log (initial_state Samples.bad_middle) ++ [msg].
Proof.
  apply (skipped_link_is_atomic pf pI). reflexivity.
Defined.

Lemma shared_points_same_bytes_witness :
  ∃ st1' st2' bytes,
    process_link pf pI Samples.idle_animation 0 0 0 Samples.good_link
      (initial_state Samples.bad_middle) = Some st1'
    ∧ process_link pf pI Samples.idle_animation 0 0 2 Samples.good_link
        (initial_state Samples.bad_middle) = Some st2'
    ∧ position_bytes (initial_state Samples.bad_middle) st1' = Some bytes
    ∧ position_bytes (initial_state Samples.bad_middle) st2' = Some bytes.
Proof.
  apply (shared_points_same_bytes pf pI Samples.bad_middle).
  - apply model_inv_initial.
  - apply model_inv_initial.
  - reflexivity.
  - reflexivity.
  - eexists. vm_compute. reflexivity.
  - eexists. vm_compute. reflexivity.
  - reflexivity.
Defined.


Lemma uv_reconciled_witness :
  ∃ st' acc tcs bytes,
    process_link pf pI Samples.idle_animation 0 0 0 Samples.good_link
      (initial_state Samples.short_uv) = Some st'
    ∧ length (nodes st') = S (length (nodes (initial_state Samples.short_uv)))
    ∧ uv_accessor (initial_state Samples.short_uv) st' = Some acc
    ∧ Accessor.type acc = VEC2
    ∧ Accessor.count acc = length Samples.five_points
    ∧ uv_bytes (initial_state Samples.short_uv) st' = Some bytes
    ∧ pack_all pf (concat (map vec2_values tcs)) = Some bytes
    ∧ length tcs = length Samples.five_points
    ∧ (length Samples.three_uv ≤ length Samples.five_points →
       tcs = Samples.three_uv
             ++ replicate (length Samples.five_points - length Samples.three_uv)
                  (0, 0)%float)
    ∧ (length Samples.five_points ≤ length Samples.three_uv →
       tcs = take (length Samples.five_points) Samples.three_uv).
Proof.
  apply (uv_reconciled pf pI Samples.short_uv).
  - apply model_inv_initial.
  - reflexivity.
  - eexists. vm_compute. reflexivity.
  - reflexivity.
  - reflexivity.
Defined.

Lemma out_of_range_material_falls_back_witness :
  ∃ st' p,
    process_link pf pI Samples.idle_animation 0 0 0 (MeshLink.mk 1 0 0 0)
      (initial_state Samples.dangling_material) = Some st'
    ∧ emitted_primitive (initial_state Samples.dangling_material) st' = Some p
    ∧ Primitive.material p = 0
    ∧ InvalidMaterialIndex 1 (Animation.name Samples.idle_animation) 0 0
        ∈ log st'
    ∧ (Primitive.material p < length (Model.materials Samples.dangling_material)
       ↔ Model.materials Samples.dangling_material ≠ []).
Proof.
  apply (out_of_range_material_falls_back pf pI Samples.dangling_material).
  - apply model_inv_initial.
  - reflexivity.
  - eexists. vm_compute. reflexivity.
  - simpl. lia.
Defined.

Lemma node_names_use_animation_index_witness :
  map Node.name (nodes (Samples.final Samples.run_walk_walk))
  = node_names Samples.run_walk_walk
  ∧ Forall (node_from Samples.run_walk_walk)
      (nodes (Samples.final Samples.run_walk_walk))
  ∧ ∀ ai a fi mi mesh l,
      Model.animations Samples.run_walk_walk !! ai = Some a →
      Animation.meshes a !! fi = Some mi →
      Model.meshes Samples.run_walk_walk !! mi = Some mesh →
      l ∈ Mesh.links mesh →
      skipped_link Samples.run_walk_walk l = false →
      ∃ n, n ∈ nodes (Samples.final Samples.run_walk_walk)
           ∧ Node.name n = indexed_name Samples.run_walk_walk ai a fi l.
Proof.
  apply (node_names_use_animation_index pf pI). vm_compute. reflexivity.
Defined.

(** The names [node_names] gives the animations run, walk, walk: the two
    walk animations carry their positions 1 and 2. *)
Example node_names_run_walk_walk :
  node_names Samples.run_walk_walk
  = map lit ["run_00_frame00_skin"; "walk_01_frame00_skin";
             "walk_02_frame00_skin"]%string.
Proof. vm_compute. reflexivity. Qed.

Lemma frame_groups_are_emitting_frames_witness :
  ∃ n,
    animation_frame_groups pf pI Samples.missing_frame 0 = Some n
    ∧ n = length (filter (λ mi, frame_emits Samples.missing_frame mi = true)
                    [0; 7])
    ∧ n ≤ length [0; 7]
    ∧ (Forall (λ mi, frame_emits Samples.missing_frame mi = true) [0; 7] →
       n = length [0; 7]).
Proof.
  apply (frame_groups_are_emitting_frames pf pI Samples.missing_frame
           (Samples.final Samples.missing_frame) 0
           (Animation.mk (NameBytes (blit "idle")) [0; 7])).
  - vm_compute. reflexivity.
  - reflexivity.
Defined.



(** C1: the serializer does not leave the texture-coordinate pool alone.
    For a link with five points and three texture coordinates the run
    completes and the pool entry has two more entries than before; the
    entry of the decoded model is gone for whoever reads the model next. *)
Theorem uv_pool_extended_in_place :
  ∃ st,
    run Samples.short_uv = Some st
    ∧ Model.texture_coordinates_data (model st)
      = [Samples.three_uv ++ [(0, 0); (0, 0)]%float]
    ∧ Model.texture_coordinates_data (model st)
      ≠ Model.texture_coordinates_data Samples.short_uv
    ∧ Model.points_data (model st) = Model.points_data Samples.short_uv
    ∧ Model.triangle_data (model st) = Model.triangle_data Samples.short_uv.
Proof.
  eexists. split; [vm_compute; reflexivity|]. split_and!; try reflexivity.
  intros H. apply (f_equal (map length)) in H. vm_compute in H. discriminate.
Qed.

(** The example of the design document for C4: five points and three
    texture coordinates give five entries, the last two [(0, 0)]. *)
Example five_points_three_uv :
  ∃ st acc,
    run Samples.short_uv = Some st
    ∧ accessors st !! 1 = Some acc
    ∧ Accessor.type acc = VEC2 ∧ Accessor.count acc = 5
    ∧ uv_bytes (initial_state Samples.short_uv) st
      = pack_all pf
          (concat (map vec2_values
                     [(0, 0); (1, 0); (0.5, 1); (0, 0); (0, 0)]%float)).
Proof.
  eexists. eexists. split; [vm_compute; reflexivity|].
  split_and!; vm_compute; reflexivity.
Qed.

(** C2 as stated fails: with the animations run, walk, walk the two walk
    animations get the prefixes walk_01 and walk_02 (their positions), not
    walk_00 and walk_01, and frames are written with two digits. *)
Lemma duplicate_names_get_positions :
  ∃ st,
    run Samples.run_walk_walk = Some st
    ∧ map Node.name (nodes st)
      = map lit ["run_00_frame00_skin"; "walk_01_frame00_skin";
                 "walk_02_frame00_skin"]%string
    ∧ map Node.name (nodes st)
      ≠ [spec_node_name (lit "run") 0 0 (lit "skin");
         spec_node_name (lit "walk") 0 0 (lit "skin");
         spec_node_name (lit "walk") 1 0 (lit "skin")].
Proof.
  eexists. split; [vm_compute; reflexivity|]. split; [vm_compute; reflexivity|].
  intros H. vm_compute in H. discriminate.
Qed.

(** C3 as stated fails: the node of the scenario is named
    idle_00_frame00_skin, and the upper bound of its positions is
    (50, 50, -50). *)
Lemma idle_scenario_differs :
  ∃ st acc,
    run Samples.idle = Some st
    ∧ accessors st !! 0 = Some acc
    ∧ map Node.name (nodes st) ≠ [lit "idle_00_frame000_skin"]
    ∧ Accessor.max acc ≠ Some [50; -50; 50]%float.
Proof.
  eexists. eexists. split; [vm_compute; reflexivity|].
  split; [vm_compute; reflexivity|]. split.
  - intros H. vm_compute in H. discriminate.
  - intros H. vm_compute in H.
    apply (f_equal (λ o, match o with
                         | Some [_; y; _] => (y <? 0)%float
                         | _ => false
                         end)) in H.
    vm_compute in H. discriminate.
Qed.

(** C3, as amended: the scenario serializes to exactly one node, named
    idle_00_frame00_skin, whose position accessor has three vertices and
    the bounds (-50, -50, -50) and (50, 50, -50). *)
Theorem idle_scenario_serialized :
  ∃ st acc mesh p,
    run Samples.idle = Some st
    ∧ nodes st = [Node.mk 0 (lit "idle_00_frame00_skin")]
    ∧ meshes st !! 0 = Some mesh
    ∧ GMesh.primitives mesh = [p]
    ∧ accessors st !! Primitive.POSITION p = Some acc
    ∧ Accessor.type acc = VEC3
    ∧ Accessor.count acc = 3
    ∧ Accessor.min acc = Some [-50; -50; -50]%float
    ∧ Accessor.max acc = Some [50; 50; -50]%float.
Proof.
  do 4 eexists. split; [vm_compute; reflexivity|].
  split_and!; vm_compute; reflexivity.
Qed.

(** C5 as stated fails: an animation of two frames whose second frame
    names a mesh that does not exist has one frame group. *)
Lemma missing_frame_has_one_group :
  Model.animations Samples.missing_frame
  = [Animation.mk (NameBytes (blit "idle")) [0; 7]]
  ∧ animation_frame_groups pf pI Samples.missing_frame 0 = Some 1
  ∧ length [0; 7] = 2.
Proof. split_and!; vm_compute; reflexivity. Qed.

(** C6 as stated fails: in a model without materials the primitive is bound
    to material 0 all the same, which no material table entry answers. *)
Lemma no_materials_dangling :
  ∃ st p,
    run Samples.no_materials = Some st
    ∧ length (nodes st) = 1
    ∧ emitted_primitive (initial_state Samples.no_materials) st = Some p
    ∧ length (Model.materials Samples.no_materials)
      ≤ MeshLink.material Samples.good_link
    ∧ ¬ Primitive.material p < length (Model.materials Samples.no_materials).
Proof.
  do 2 eexists. split; [vm_compute; reflexivity|].
  split_and!; try (vm_compute; reflexivity). simpl. lia.
Qed.

End Closed.

(** * More of the serializer *)

Section Coverage.

Variable pack_f : float → option (list byte).
Variable pack_I : N → option (list byte).

Local Abbreviation plink := (process_link pack_f pack_I).
Local Abbreviation pframe := (process_frame pack_f pack_I).
Local Abbreviation panimation := (process_animation pack_f pack_I).
Local Abbreviation export := (export_to_gltf pack_f pack_I).

(** An invariant of a run: it holds of the first state and is kept by a
    message, by the counter of animation names and by an emitted link. *)
Lemma export_ind m (P : State → Prop) :
  P (initial_state m) →
  (∀ st msg, P st → P (print msg st)) →
  (∀ st ix, P st → P (set_anim_name_indexer ix st)) →
  (∀ a ai fi li l st st' tris pts uvc pos uvb idx mins maxs,
     model_inv m st → P st →
     emission pack_f pack_I a ai fi li l st st' tris pts uvc pos uvb idx
       mins maxs →
     P st') →
  ∀ st, export m = Some st → P st.
Proof.
  intros Hinit Hprint Hix Hemit st H.
  enough (model_inv m st ∧ P st) as [_ ?] by done.
  eapply (for_enumerate_inv _ (λ s, model_inv m s ∧ P s));
    [|split; [apply model_inv_initial|done]|exact H].
  clear st H. intros ai a st st' _ [Hm HP] H. simpl in H.
  unfold process_animation in H.
  eapply (for_enumerate_inv _ (λ s, model_inv m s ∧ P s)); [| |exact H].
  2: { split; [by apply (model_inv_same_model m st)|by apply Hix]. }
  clear st st' Hm HP H. intros fi mi st st' _ [Hm HP] H. simpl in H.
  unfold process_frame in H.
  destruct (Model.meshes (model st) !! mi) as [mesh|].
  2: { injection H as <-.
       split; [by apply (model_inv_same_model m st)|by apply Hprint]. }
  eapply (for_enumerate_inv _ (λ s, model_inv m s ∧ P s)); [|by split|exact H].
  clear st st' Hm HP H. intros li l st st' _ [Hm HP] H. simpl in H.
  split; [by eapply process_link_inv|].
  destruct (skipped_link (model st) l) eqn:Hs.
  - destruct (process_link_skip pack_f pack_I a ai fi li l st Hs) as [msg E].
    rewrite E in H. injection H as <-. by apply Hprint.
  - destruct (process_link_emitted pack_f pack_I _ _ _ _ _ _ _ Hs H)
      as (tris & pts & uv & pos & uvb & idx & mins & maxs & Hem).
    by eapply Hemit.
Qed.


(** ** What a run leaves of the model *)

(** X1: a run that completes leaves the name, the materials, the meshes,
    the animations and the points and triangles pools of the model as
    they were; the texture-coordinate pool keeps its length, and each of
    its entries is the decoded entry followed by [(0, 0)] entries. *)
Theorem run_only_pads_uv m st :
  export_to_gltf pack_f pack_I m = Some st →
  Model.name (model st) = Model.name m
  ∧ Model.materials (model st) = Model.materials m
  ∧ Model.meshes (model st) = Model.meshes m
  ∧ Model.animations (model st) = Model.animations m
  ∧ Model.triangle_data (model st) = Model.triangle_data m
  ∧ Model.points_data (model st) = Model.points_data m
  ∧ length (Model.texture_coordinates_data (model st))
    = length (Model.texture_coordinates_data m)
  ∧ ∀ i orig,
      Model.texture_coordinates_data m !! i = Some orig →
      ∃ k, Model.texture_coordinates_data (model st) !! i
           = Some (orig ++ replicate k (0, 0)%float).
Proof.
  intros H. destruct (export_inv pack_f pack_I m st H) as [? ? ? ? ? ? Huv].
  split_and!; try done.
  - symmetry. by eapply Forall2_length.
  - intros i orig Ho.
    destruct (Forall2_lookup_l _ _ _ _ _ Huv Ho) as (cur & Hc & k & ->).
    by exists k.
Qed.

(** ** The material table *)

(** X2: the material table of the document is made before the loops and
    not touched by them: it has one entry per material of the model, and
    entry [i] is named material_{i:02d}_{name} and records [i] and the
    decoded name. *)
Theorem material_table_passthrough m st :
  export m = Some st →
  length (materials st) = length (Model.materials m)
  ∧ ∀ i material,
      Model.materials m !! i = Some material →
      materials st !! i
      = Some (GMaterial.mk
                (lit "material_" ++ format_02d i ++ lit "_"
                 ++ decode_name (Material.name material))
                i (decode_name (Material.name material))).
Proof.
  intros H.
  assert (Hm : materials st = gltf_materials m).
  { revert st H. apply export_ind; try done.
    intros a ai fi li l st st' tris pts uvc pos uvb idx mins maxs _ HP Hem.
    by rewrite (em_materials _ _ _ _ _ _ _ _ _ _ _ _ _ _ _ _ _ Hem). }
  rewrite Hm. unfold gltf_materials. split.
  - by rewrite length_imap.
  - intros i material Hi. rewrite list_lookup_imap, Hi. done.
Qed.

(** ** The shape of the document *)

Lemma mesh_shape_mono st st' i g more :
  accessors st' = accessors st ++ more →
  mesh_shape st i g → mesh_shape st' i g.
Proof.
  intros E (mat & ap & at' & ax & Hg & Hp & Ht & Hx & Hrest).
  exists mat, ap, at', ax. rewrite E.
  split; [done|]. do 3 (split; [by apply lookup_app_l_Some|]). done.
Qed.

Lemma export_doc_inv m st : export m = Some st → doc_inv st.
Proof.
  revert st. apply export_ind.
  - unfold doc_inv. simpl. split_and!; [done|done| |]; intros i x Hx;
      by rewrite lookup_nil in Hx.
  - done.
  - done.
  - intros a ai fi li l st st' tris pts uvc pos uvb idx mins maxs _
      (Hn & Ha & Hnode & Hmesh) Hem.
    pose proof (em_nodes _ _ _ _ _ _ _ _ _ _ _ _ _ _ _ _ _ Hem) as En.
    pose proof (em_meshes _ _ _ _ _ _ _ _ _ _ _ _ _ _ _ _ _ Hem) as Eme.
    pose proof (em_accessors _ _ _ _ _ _ _ _ _ _ _ _ _ _ _ _ _ Hem) as Ea.
    unfold doc_inv. rewrite En, Eme. split_and!.
    + rewrite !length_app. simpl. lia.
    + rewrite Ea, !length_app. simpl. lia.
    + intros i n Hi. apply lookup_app_Some in Hi as [Hi|[Hge Hi]].
      * by apply Hnode.
      * rewrite Hn in Hge, Hi.
        destruct (i - length (meshes st)) as [|j] eqn:Ej; [|done].
        injection Hi as <-. simpl. lia.
    + intros i g Hi. apply lookup_app_Some in Hi as [Hi|[Hge Hi]].
      * eapply mesh_shape_mono; [exact Ea|]. by apply Hmesh.
      * destruct (i - length (meshes st)) as [|j] eqn:Ej; [|done].
        injection Hi as <-.
        assert (i = length (meshes st)) as -> by lia.
        unfold mesh_shape. rewrite Ea.
        eexists _, _, _, _. split_and!; [by rewrite Ha| | | |..].
        -- rewrite <- Ha. by apply list_lookup_middle.
        -- rewrite <- Ha. rewrite lookup_app_r by lia.
           by replace (length (accessors st) + 1 - length (accessors st))
             with 1 by lia.
        -- rewrite <- Ha. rewrite lookup_app_r by lia.
           by replace (length (accessors st) + 2 - length (accessors st))
             with 2 by lia.
        -- done.
        -- done.
        -- done.
        -- by eexists.
        -- by eexists.
        -- done.
        -- done.
        -- done.
        -- done.
        -- done.
        -- done.
        -- done.
Qed.

(** X3: in the document of a run that completes every reference
    resolves: a node shows a mesh that exists; the mesh has one primitive;
    its POSITION is a VEC3 accessor of floats with bounds, its TEXCOORD_0 a
    VEC2 accessor of floats with as many elements, both on the vertex
    buffer, and its indices a SCALAR accessor of unsigned ints on the index
    buffer. *)
Theorem document_references_resolve m st n :
  export_to_gltf pack_f pack_I m = Some st →
  n ∈ nodes st →
  ∃ g p ap at' ax,
    meshes st !! Node.mesh n = Some g
    ∧ GMesh.primitives g = [p]
    ∧ accessors st !! Primitive.POSITION p = Some ap
    ∧ accessors st !! Primitive.TEXCOORD_0 p = Some at'
    ∧ accessors st !! Primitive.indices p = Some ax
    ∧ Accessor.type ap = VEC3 ∧ Accessor.componentType ap = FLOAT
    ∧ Accessor.bufferView ap = 0
    ∧ is_Some (Accessor.min ap) ∧ is_Some (Accessor.max ap)
    ∧ Accessor.type at' = VEC2 ∧ Accessor.componentType at' = FLOAT
    ∧ Accessor.bufferView at' = 0 ∧ Accessor.count at' = Accessor.count ap
    ∧ Accessor.type ax = SCALAR ∧ Accessor.componentType ax = UNSIGNED_INT
    ∧ Accessor.bufferView ax = 1.
Proof.
  intros H Hn. destruct (export_doc_inv m st H) as (Hlen & _ & Hnode & Hmesh).
  apply list_elem_of_lookup in Hn as [i Hi].
  pose proof (Hnode i n Hi) as Emesh.
  assert (is_Some (meshes st !! i)) as [g Hg].
  { apply lookup_lt_is_Some. rewrite <- Hlen. by eapply lookup_lt_Some. }
  destruct (Hmesh i g Hg) as (mat & ap & at' & ax & Hp & Hrest).
  exists g, (Primitive.mk (3 * i) (3 * i + 1) (3 * i + 2) mat), ap, at', ax.
  rewrite Emesh.
  cbn [Primitive.POSITION Primitive.TEXCOORD_0 Primitive.indices].
  split; [done|]. split; [done|]. exact Hrest.
Qed.

(** X4: nodes, meshes and accessors are made together: as many meshes as
    nodes, three accessors per mesh, and node [i] shows mesh [i], so no two
    nodes share a mesh. *)
Theorem one_mesh_per_node m st :
  export_to_gltf pack_f pack_I m = Some st →
  length (meshes st) = length (nodes st)
  ∧ length (accessors st) = 3 * length (nodes st)
  ∧ (∀ i n, nodes st !! i = Some n → Node.mesh n = i)
  ∧ (∀ i j n1 n2,
       nodes st !! i = Some n1 → nodes st !! j = Some n2 →
       Node.mesh n1 = Node.mesh n2 → i = j).
Proof.
  intros H. destruct (export_doc_inv m st H) as (Hlen & Ha & Hnode & _).
  split_and!; [done|by rewrite Hlen|done|].
  intros i j n1 n2 H1 H2 E.
  by rewrite <- (Hnode i n1 H1), <- (Hnode j n2 H2).
Qed.


(** ** Accessors and buffers *)

Lemma pack_all_length {A : Type} (pack : A → option (list byte)) n l bs :
  (∀ x b, pack x = Some b → length b = n) →
  pack_all pack l = Some bs → length bs = n * length l.
Proof.
  intros Hn. revert bs. induction l as [|x l IH]; intros bs H; simpl in H.
  - injection H as <-. simpl. lia.
  - do 2 inv_bind H. injection H as <-.
    rewrite length_app, (Hn _ _ E), (IH _ eq_refl). simpl. lia.
Qed.

Lemma length_flat_vec3 (vs : list Vec3) :
  length (concat (map vec3_values vs)) = 3 * length vs.
Proof. induction vs as [|[[? ?] ?] vs IH]; simpl; lia. Qed.

Lemma length_flat_vec2 (ts : list Vec2) :
  length (concat (map vec2_values ts)) = 2 * length ts.
Proof. induction ts as [|[? ?] ts IH]; simpl; lia. Qed.

Lemma accessor_fits_mono st st' acc :
  (∀ view, length (buffer st view) ≤ length (buffer st' view)) →
  accessor_fits st acc → accessor_fits st' acc.
Proof.
  unfold accessor_fits. intros Hb H.
  specialize (Hb (Accessor.bufferView acc)). lia.
Qed.

(** X5: when [struct.pack] gives four bytes for a float and for an index,
    every accessor of a run that completes describes bytes that are in its
    buffer: its offset plus four bytes per component and element does not
    pass the end of the vertex buffer (view 0) or of the index buffer
    (view 1). *)
Theorem accessors_fit_buffers m st :
  (∀ x b, pack_f x = Some b → length b = 4) →
  (∀ i b, pack_I i = Some b → length b = 4) →
  export m = Some st →
  Forall (accessor_fits st) (accessors st).
Proof.
  intros Hf HI. revert st. apply export_ind.
  - simpl. by apply Forall_nil.
  - done.
  - done.
  - intros a ai fi li l st st' tris pts uvc pos uvb idx mins maxs _ HP Hem.
    pose proof (em_accessors _ _ _ _ _ _ _ _ _ _ _ _ _ _ _ _ _ Hem) as Ea.
    pose proof (em_vertex_bytes _ _ _ _ _ _ _ _ _ _ _ _ _ _ _ _ _ Hem) as Ev.
    pose proof (em_index_bytes _ _ _ _ _ _ _ _ _ _ _ _ _ _ _ _ _ Hem) as Ei.
    pose proof (pack_all_length _ _ _ _ Hf
                  (em_pos _ _ _ _ _ _ _ _ _ _ _ _ _ _ _ _ _ Hem)) as Lpos.
    pose proof (pack_all_length _ _ _ _ Hf
                  (em_uvb _ _ _ _ _ _ _ _ _ _ _ _ _ _ _ _ _ Hem)) as Luvb.
    pose proof (pack_all_length _ _ _ _ HI
                  (em_idx _ _ _ _ _ _ _ _ _ _ _ _ _ _ _ _ _ Hem)) as Lidx.
    rewrite length_flat_vec3, length_map in Lpos.
    rewrite length_flat_vec2, length_reconcile_uv in Luvb.
    assert (Lv : length (vertex_byte_array st')
                 = length (vertex_byte_array st) + length pos + length uvb)
      by (rewrite Ev, length_app, length_app; lia).
    assert (Li : length (index_byte_array st')
                 = length (index_byte_array st) + length idx)
      by (by rewrite Ei, length_app).
    rewrite Ea. apply Forall_app. split.
    + eapply Forall_impl; [exact HP|]. intros acc. apply accessor_fits_mono.
      intros [|view]; cbn [buffer]; lia.
    + apply Forall_cons; split; [|apply Forall_cons; split;
                                   [|apply Forall_cons; split;
                                      [|apply Forall_nil]]];
        unfold accessor_fits;
        cbn [buffer components Accessor.byteOffset Accessor.type
             Accessor.count Accessor.bufferView]; lia.
Qed.

Lemma view_bytes_app view accs1 accs2 :
  view_bytes view (accs1 ++ accs2)
  = view_bytes view accs1 + view_bytes view accs2.
Proof.
  unfold view_bytes. rewrite filter_app, map_app. apply sum_list_with_app.
Qed.

Lemma view_bytes_emitted o1 o2 o3 n k mins maxs :
  let new := [Accessor.mk 0 o1 FLOAT n VEC3 mins maxs;
              Accessor.mk 0 o2 FLOAT n VEC2 None None;
              Accessor.mk 1 o3 UNSIGNED_INT k SCALAR None None] in
  view_bytes 0 new = 12 * n + 8 * n ∧ view_bytes 1 new = 4 * k
  ∧ view_bytes 0 (take 1 new) = 12 * n ∧ view_bytes 1 (take 2 new) = 0.
Proof.
  cbv zeta. unfold view_bytes, accessor_bytes. cbn -[Nat.mul].
  repeat case_decide; try done. cbn -[Nat.mul]. lia.
Qed.

(** X22: when [struct.pack] gives four bytes for a float and for an index,
    the accessors of a run that completes tile the two buffers without gap
    or overlap: the offset of an accessor is the number of bytes of the
    accessors before it in the same buffer, and the length of a buffer is
    the number of bytes of all its accessors. *)
Theorem accessors_tile_buffers m st :
  (∀ x b, pack_f x = Some b → length b = 4) →
  (∀ i b, pack_I i = Some b → length b = 4) →
  export m = Some st →
  tiled st.
Proof.
  intros Hf HI. revert st. apply export_ind.
  - split_and!; [done|done|]. intros i acc Hi. by destruct i.
  - done.
  - done.
  - intros a ai fi li l st st' tris pts uvc pos uvb idx mins maxs _
      (Hv & Hi & Hoff) Hem.
    pose proof (em_accessors _ _ _ _ _ _ _ _ _ _ _ _ _ _ _ _ _ Hem) as Ea.
    pose proof (em_vertex_bytes _ _ _ _ _ _ _ _ _ _ _ _ _ _ _ _ _ Hem) as Ev.
    pose proof (em_index_bytes _ _ _ _ _ _ _ _ _ _ _ _ _ _ _ _ _ Hem) as Ei.
    pose proof (pack_all_length _ _ _ _ Hf
                  (em_pos _ _ _ _ _ _ _ _ _ _ _ _ _ _ _ _ _ Hem)) as Lpos.
    pose proof (pack_all_length _ _ _ _ Hf
                  (em_uvb _ _ _ _ _ _ _ _ _ _ _ _ _ _ _ _ _ Hem)) as Luvb.
    pose proof (pack_all_length _ _ _ _ HI
                  (em_idx _ _ _ _ _ _ _ _ _ _ _ _ _ _ _ _ _ Hem)) as Lidx.
    rewrite length_flat_vec3, length_map in Lpos.
    rewrite length_flat_vec2, length_reconcile_uv in Luvb.
    assert (Lv : length (vertex_byte_array st')
                 = length (vertex_byte_array st) + length pos + length uvb)
      by (rewrite Ev, length_app, length_app; lia).
    assert (Li : length (index_byte_array st')
                 = length (index_byte_array st) + length idx)
      by (by rewrite Ei, length_app).
    destruct (view_bytes_emitted (length (vertex_byte_array st))
                (length (vertex_byte_array st) + length pos)
                (length (index_byte_array st)) (length pts) (length tris)
                (Some mins) (Some maxs)) as (V0 & V1 & T0 & T1).
    unfold tiled. rewrite Ea, !view_bytes_app, V0, V1.
    split_and!; [lia|lia|].
    intros i acc Hacc.
    apply lookup_app_Some in Hacc as [Hacc|[Hge Hacc]].
    + rewrite take_app_le by (apply lookup_lt_Some in Hacc; lia).
      by apply Hoff.
    + rewrite take_app_ge by done. rewrite view_bytes_app.
      destruct (i - length (accessors st)) as [|[|[|j]]] eqn:Ej;
        cbn [lookup list_lookup] in Hacc; [| | |done];
        injection Hacc as <-;
        cbn [Accessor.bufferView Accessor.byteOffset].
      * cbn [take]. unfold view_bytes at 2. cbn. lia.
      * rewrite T0. lia.
      * rewrite T1. lia.
Qed.

(** ** The number of nodes *)

Lemma frames_nodes_growth m a ai frames :
  ∀ fi st st',
    model_inv m st →
    for_enumerate (pframe a ai) fi frames st = Some st' →
    model_inv m st'
    ∧ length (nodes st')
      = length (nodes st) + sum_list (map (emitted_links m) frames).
Proof.
  induction frames as [|mi frames IH]; intros fi st st' Hinv H; simpl in H.
  - injection H as <-. simpl. split; [done|lia].
  - destruct (pframe a ai fi mi st) as [s1|] eqn:E; [|done].
    assert (model_inv m s1
            ∧ length (nodes s1) = length (nodes st) + emitted_links m mi)
      as [Hinv1 Hlen1].
    { unfold process_frame in E. unfold emitted_links.
      rewrite (inv_meshes _ _ Hinv) in E.
      destruct (Model.meshes m !! mi) as [mesh|].
      - by eapply links_nodes_growth.
      - injection E as <-. split; [by apply (model_inv_same_model m st)|].
        simpl. lia. }
    destruct (IH _ _ _ Hinv1 H) as [Hinv' Hlen]. split; [done|].
    rewrite Hlen, Hlen1. simpl. lia.
Qed.

Lemma animations_nodes_growth m anims :
  ∀ ai st st',
    model_inv m st →
    for_enumerate panimation ai anims st = Some st' →
    length (nodes st')
    = length (nodes st)
      + sum_list (map (λ a, sum_list (map (emitted_links m)
                                        (Animation.meshes a))) anims).
Proof.
  induction anims as [|a anims IH]; intros ai st st' Hinv H; simpl in H.
  - injection H as <-. simpl. lia.
  - destruct (panimation ai a st) as [s1|] eqn:E; [|done].
    unfold process_animation in E.
    assert (Hinv0 : model_inv m
              (set_anim_name_indexer
                 (bump_indexer (decode_name (Animation.name a))
                    (anim_name_indexer st)) st))
      by (by apply (model_inv_same_model m st)).
    destruct (frames_nodes_growth m a ai _ _ _ _ Hinv0 E) as [Hinv1 Hlen1].
    rewrite (IH _ _ _ Hinv1 H), Hlen1. simpl. lia.
Qed.

(** X6: a run that completes makes one node for every link that is not
    skipped, each time a frame of an animation shows its mesh: the number
    of nodes is the sum, over the animations and their frames, of the
    emitted links of the frame's mesh (none for a mesh that does not
    exist). *)
Theorem node_count m st :
  export m = Some st → length (nodes st) = expected_nodes m.
Proof.
  intros H. unfold expected_nodes.
  by rewrite (animations_nodes_growth m _ 0 _ _ (model_inv_initial m) H).
Qed.


(** ** Names *)

Lemma replace_single c (s : list N) :
  filter (λ x, x ≠ c) s = replace [c] [] s.
Proof.
  unfold replace. induction s as [|a s IH]; [done|].
  rewrite filter_cons. cbn [replace_go starts_with length Nat.sub app].
  rewrite <- IH. destruct (N.eqb_spec c a) as [->|Hne]; cbn [andb].
  - by rewrite decide_False by (intros Hx; by apply Hx).
  - by rewrite decide_True by (intros ->; by apply Hne).
Qed.

Lemma lstrip_elem x s : x ∈ lstrip s → x ∈ s.
Proof.
  induction s as [|c s IH]; simpl; [done|].
  destruct (is_space c); [|done]. intros H. apply elem_of_cons. right. auto.
Qed.

Lemma strip_elem x s : x ∈ strip s → x ∈ s.
Proof.
  unfold strip, rstrip. intros H.
  apply list_elem_of_In, in_rev, list_elem_of_In in H.
  apply lstrip_elem in H.
  apply list_elem_of_In, in_rev, list_elem_of_In in H.
  by apply lstrip_elem.
Qed.

Lemma lstrip_head s c : head (lstrip s) = Some c → is_space c = false.
Proof.
  induction s as [|a s IH]; simpl; [done|].
  destruct (is_space a) eqn:E; [done|]. simpl. by intros [= <-].
Qed.

Lemma lstrip_snoc s c :
  is_space c = false → ∃ s', lstrip (s ++ [c]) = s' ++ [c].
Proof.
  intros Hc. induction s as [|a s [s' IH]]; simpl.
  - rewrite Hc. by exists [].
  - destruct (is_space a); [by exists s'|]. by exists (a :: s).
Qed.

Lemma strip_ends s :
  (∀ c, head (strip s) = Some c → is_space c = false)
  ∧ (∀ c, last (strip s) = Some c → is_space c = false).
Proof.
  unfold strip, rstrip. split; intros c H.
  - destruct (lstrip s) as [|a t] eqn:E; [done|].
    assert (Ha : is_space a = false) by (apply (lstrip_head s); by rewrite E).
    change (a :: t) with ([a] ++ t) in H. rewrite rev_app_distr in H. simpl in H.
    destruct (lstrip_snoc (rev t) a Ha) as [s' E']. rewrite E' in H.
    rewrite rev_app_distr in H. simpl in H. by injection H as <-.
  - rewrite <- (rev_involutive (rev (lstrip (rev (lstrip s))))) in H.
    rewrite rev_involutive in H.
    assert (Hl : ∀ (l : list N), last (rev l) = head l).
    { intros l. destruct l as [|x l]; [done|]. simpl. by rewrite last_snoc. }
    rewrite Hl in H. by apply lstrip_head in H.
Qed.

(** X7: no node name of a run that completes holds an apostrophe, and none
    begins or ends with a blank: the name is what the cleaning of line 762
    leaves. *)
Theorem node_names_are_clean m st n :
  export m = Some st →
  n ∈ nodes st →
  (39%N ∉ Node.name n)
  ∧ (∀ c, head (Node.name n) = Some c → is_space c = false)
  ∧ (∀ c, last (Node.name n) = Some c → is_space c = false).
Proof.
  intros H Hn.
  assert (Hall : Forall (λ n, ∃ s, Node.name n = clean s) (nodes st)).
  { clear Hn. revert st H. apply export_ind; [by apply Forall_nil|done|done|].
    intros a ai fi li l st st' tris pts uvc pos uvb idx mins maxs _ HP Hem.
    rewrite (em_nodes _ _ _ _ _ _ _ _ _ _ _ _ _ _ _ _ _ Hem).
    apply Forall_app. split; [done|].
    apply Forall_singleton. by eexists. }
  rewrite Forall_forall in Hall. destruct (Hall n Hn) as [s ->].
  unfold clean. split; [|apply strip_ends].
  intros Hin%strip_elem. change (lit "'") with [39%N] in Hin.
  rewrite <- replace_single in Hin.
  by apply list_elem_of_filter in Hin as [? _].
Qed.

(** X8: the name of a node does not tell the links of a frame apart: two
    emitted links of the same frame that are bound to the same material
    give nodes of the same name, whatever their numbers and their pool
    entries. *)
Theorem node_name_ignores_link m a ai fi li1 li2 l1 l2 st1 st2 st1' st2' :
  model_inv m st1 → model_inv m st2 →
  skipped_link m l1 = false → skipped_link m l2 = false →
  bound_material m l1 = bound_material m l2 →
  plink a ai fi li1 l1 st1 = Some st1' →
  plink a ai fi li2 l2 st2 = Some st2' →
  ∃ n1 n2,
    nodes st1' = nodes st1 ++ [n1] ∧ nodes st2' = nodes st2 ++ [n2]
    ∧ Node.name n1 = Node.name n2.
Proof.
  intros Hi1 Hi2 Hs1 Hs2 Hb H1 H2.
  pose proof (process_link_nodes pack_f pack_I m _ _ _ _ _ _ _ Hi1 H1) as E1.
  pose proof (process_link_nodes pack_f pack_I m _ _ _ _ _ _ _ Hi2 H2) as E2.
  rewrite Hs1 in E1. rewrite Hs2 in E2.
  eexists _, _. split_and!; [exact E1|exact E2|]. simpl. by rewrite Hb.
Qed.


(** ** Animations of the same name *)

Lemma occurrences_snoc k (names : list str) n :
  occurrences k (names ++ [n])
  = occurrences k names + (if decide (n = k) then 1 else 0).
Proof.
  unfold occurrences. rewrite filter_app, length_app, filter_cons, filter_nil.
  by destruct (decide (n = k)).
Qed.

Lemma occurrences_cons k (names : list str) n :
  occurrences k (n :: names)
  = (if decide (n = k) then 1 else 0) + occurrences k names.
Proof.
  unfold occurrences. rewrite filter_cons. by destruct (decide (n = k)).
Qed.

Lemma occurrences_0 k (names : list str) :
  occurrences k names = 0 ↔ k ∉ names.
Proof.
  induction names as [|n names IH].
  { split; [intros _; apply not_elem_of_nil|done]. }
  rewrite occurrences_cons, not_elem_of_cons.
  destruct (decide (n = k)) as [->|Hne]; simpl.
  - split; [done|]. by intros [? _].
  - rewrite IH. split; [by split|by intros [_ ?]].
Qed.

Lemma NoDup_occurrences (names : list str) :
  NoDup names ↔ ∀ k, occurrences k names ≤ 1.
Proof.
  induction names as [|n names IH].
  - split; [|by intros; apply NoDup_nil]. intros _ k. unfold occurrences.
    simpl. lia.
  - rewrite NoDup_cons, IH. split.
    + intros [Hn Hall] k. rewrite occurrences_cons.
      destruct (decide (n = k)) as [<-|_]; [|apply Hall].
      apply occurrences_0 in Hn. rewrite Hn. lia.
    + intros Hall. split.
      * apply occurrences_0. specialize (Hall n).
        rewrite occurrences_cons, decide_True in Hall by done. lia.
      * intros k. specialize (Hall k). rewrite occurrences_cons in Hall. lia.
Qed.

Lemma assoc_count_name k n counts :
  assoc k (count_name n counts)
  = if decide (n = k) then Some (default 0 (assoc n counts) + 1)
    else assoc k counts.
Proof.
  induction counts as [|[k' c] counts IH]; simpl.
  - by destruct (decide (n = k)).
  - unfold bool_decide. destruct (decide_rel eq k' n) as [->|Hne]; simpl;
      rewrite ?IH; repeat case_decide; simplify_eq; done.
Qed.

Lemma keys_count_name n counts :
  map fst (count_name n counts)
  = if decide (n ∈ map fst counts) then map fst counts
    else map fst counts ++ [n].
Proof.
  induction counts as [|[k' c] counts IH]; cbn [count_name map fst].
  - destruct (decide (n ∈ [])) as [H|_]; [by apply elem_of_nil in H|done].
  - unfold bool_decide.
    destruct (decide_rel eq k' n) as [->|Hne]; cbn [map fst].
    + destruct (decide (n ∈ n :: map fst counts)) as [|Hn]; [done|].
      exfalso. apply Hn, list_elem_of_here.
    + rewrite IH.
      destruct (decide (n ∈ map fst counts)) as [Hin|Hnin],
               (decide (n ∈ k' :: map fst counts)) as [H|H]; try done.
      * exfalso. apply H. by apply list_elem_of_further.
      * apply elem_of_cons in H as [?|?]; [congruence|done].
Qed.

Lemma assoc_elem k c counts :
  NoDup (map fst counts) → (k, c) ∈ counts ↔ assoc k counts = Some c.
Proof.
  induction counts as [|[k' c'] counts IH]; simpl; intros Hnd.
  - by rewrite elem_of_nil.
  - apply NoDup_cons in Hnd as [Hk' Hnd]. rewrite elem_of_cons, IH by done.
    destruct (decide (k' = k)) as [->|Hne].
    + split; [|intros [= ->]; by left]. intros [[= ->]|Ha]; [done|].
      exfalso. apply Hk'. apply list_elem_of_fmap. exists (k, c).
      split; [done|]. by apply IH.
    + split; [|by right]. intros [[= ? ?]|?]; [congruence|done].
Qed.

(** The dict of counts after the names [names]. *)
Lemma counts_spec (names : list str) :
  let counts := fold_left (λ counts n, count_name n counts) names [] in
  NoDup (map fst counts)
  ∧ ∀ k, assoc k counts
         = match occurrences k names with 0 => None | c => Some c end.
Proof.
  induction names as [|n names [Hnd Hassoc]] using rev_ind; simpl.
  - split; [apply NoDup_nil|done]. done.
  - rewrite fold_left_app. simpl. split.
    + rewrite keys_count_name.
      destruct (decide (n ∈ map fst _)) as [?|Hnin]; [done|].
      apply NoDup_app. split_and!; [done| |apply NoDup_singleton].
      intros x Hx ->%list_elem_of_singleton. done.
    + intros k. rewrite assoc_count_name, occurrences_snoc.
      destruct (decide (n = k)) as [->|?].
      * rewrite Hassoc. destruct (occurrences k names); simpl; f_equal; lia.
      * rewrite Hassoc, Nat.add_0_r. done.
Qed.

Lemma anim_name_counts_names m :
  anim_name_counts m
  = fold_left (λ counts n, count_name n counts) (animation_names m) [].
Proof.
  unfold anim_name_counts, animation_names.
  generalize (@nil (str * nat)).
  induction (Model.animations m) as [|a l IH]; intros acc; simpl; [done|].
  apply IH.
Qed.

(** X9: the names listed in the warning of line 601 are the decoded
    animation names that occur more than once, each listed once; the
    warning is printed exactly when two animations have the same decoded
    name. *)
Theorem duplicate_names_spec m :
  NoDup (duplicate_names m)
  ∧ (∀ k, k ∈ duplicate_names m ↔ 1 < occurrences k (animation_names m))
  ∧ (log (initial_state m) = [] ↔ NoDup (animation_names m)).
Proof.
  pose proof (counts_spec (animation_names m)) as [Hnd Hassoc].
  rewrite <- anim_name_counts_names in Hnd, Hassoc.
  assert (Hmem : ∀ k, k ∈ duplicate_names m
                      ↔ 1 < occurrences k (animation_names m)).
  { intros k. unfold duplicate_names. rewrite list_elem_of_fmap. split.
    - intros ([k' c] & -> & [Hc Hin]%list_elem_of_filter). simpl in *.
      apply Nat.ltb_lt in Hc. apply assoc_elem in Hin; [|done].
      rewrite Hassoc in Hin.
      destruct (occurrences k' (animation_names m)); [done|].
      injection Hin as <-. done.
    - intros Hocc. exists (k, occurrences k (animation_names m)).
      split; [done|]. apply list_elem_of_filter. split.
      + simpl. by apply Nat.ltb_lt.
      + apply assoc_elem; [done|]. rewrite Hassoc.
        by destruct (occurrences k (animation_names m)); [lia|]. }
  split_and!; [|done|].
  - unfold duplicate_names. apply NoDup_fmap_fst.
    + intros k c1 c2 [_ H1]%list_elem_of_filter [_ H2]%list_elem_of_filter.
      apply assoc_elem in H1, H2; try done. congruence.
    + apply NoDup_filter. eapply NoDup_fmap_1. exact Hnd.
  - rewrite NoDup_occurrences. simpl.
    destruct (duplicate_names m) as [|d ds] eqn:E.
    + split; [|done]. intros _ k.
      destruct (decide (1 < occurrences k (animation_names m))) as [Hlt|?];
        [|lia].
      apply Hmem in Hlt. by rewrite elem_of_nil in Hlt.
    + split; [done|]. intros Hall. exfalso.
      assert (Hd : d ∈ d :: ds) by apply list_elem_of_here.
      apply Hmem in Hd. specialize (Hall d). lia.
Qed.

Lemma bump_spec (names : list str) k :
  fold_left (λ ix n, bump_indexer n ix) names ∅ !! k
  = match occurrences k names with 0 => None | S c => Some c end.
Proof.
  induction names as [|n names IH] using rev_ind; [done|].
  rewrite fold_left_app, occurrences_snoc. cbn [fold_left].
  unfold bump_indexer at 1.
  destruct (decide (n = k)) as [->|Hne].
  - rewrite IH. destruct (occurrences k names) as [|c]; cbn [Nat.add].
    + by rewrite lookup_insert_eq.
    + rewrite lookup_insert_eq. f_equal; lia.
  - rewrite Nat.add_0_r, <- IH.
    destruct (fold_left _ names ∅ !! n); by rewrite lookup_insert_ne.
Qed.

Lemma process_link_indexer a ai fi li l st st' :
  plink a ai fi li l st = Some st' →
  anim_name_indexer st' = anim_name_indexer st.
Proof.
  intros H. destruct (skipped_link (model st) l) eqn:Hs.
  - destruct (process_link_skip pack_f pack_I a ai fi li l st Hs) as [msg E].
    rewrite E in H. by injection H as <-.
  - destruct (process_link_emitted pack_f pack_I _ _ _ _ _ _ _ Hs H)
      as (tris & pts & uv & pos & uvb & idx & mins & maxs & Hem).
    apply (em_indexer _ _ _ _ _ _ _ _ _ _ _ _ _ _ _ _ _ Hem).
Qed.

Lemma process_animation_indexer ai a st st' :
  panimation ai a st = Some st' →
  anim_name_indexer st'
  = bump_indexer (decode_name (Animation.name a)) (anim_name_indexer st).
Proof.
  intros H. unfold process_animation in H. cbv zeta in H.
  revert H.
  apply (for_enumerate_inv _
            (λ s, anim_name_indexer s
                  = bump_indexer (decode_name (Animation.name a))
                      (anim_name_indexer st))); [|reflexivity].
  intros fi mi s s' _ Hs Hf. cbn [Nat.add] in Hf. unfold process_frame in Hf.
  destruct (Model.meshes (model s) !! mi) as [mesh|].
  - revert Hf.
    apply (for_enumerate_inv _
              (λ t, anim_name_indexer t
                    = bump_indexer (decode_name (Animation.name a))
                        (anim_name_indexer st))); [|exact Hs].
    intros li l t t' _ Ht Hl. cbn [Nat.add] in Hl.
    by rewrite (process_link_indexer _ _ _ _ _ _ _ Hl).
  - by injection Hf as <-.
Qed.

Lemma animations_indexer anims :
  ∀ ai st st',
    for_enumerate panimation ai anims st = Some st' →
    anim_name_indexer st'
    = fold_left (λ ix n, bump_indexer n ix)
        (map (λ a, decode_name (Animation.name a)) anims)
        (anim_name_indexer st).
Proof.
  induction anims as [|a anims IH]; intros ai st st' H; simpl in H.
  - by injection H as <-.
  - destruct (panimation ai a st) as [s1|] eqn:E; [|done].
    rewrite (IH _ _ _ H), (process_animation_indexer _ _ _ _ E). done.
Qed.

(** X10: the counter of lines 604-619 ends, for every decoded animation
    name, at the number of animations of that name less one, and has no
    entry for any other name. *)
Theorem name_counter_counts m st k :
  export m = Some st →
  anim_name_indexer st !! k
  = match occurrences k (animation_names m) with
    | 0 => None
    | S c => Some c
    end.
Proof.
  intros H. rewrite (animations_indexer _ _ _ _ H). apply bump_spec.
Qed.

(** ** [clean_material_name] *)

Lemma filter_all {A} (P : A → Prop) `{!∀ x, Decision (P x)} (l : list A) :
  Forall P l → filter P l = l.
Proof.
  induction 1 as [|x l Hx _ IH]; [done|].
  by rewrite filter_cons_True, IH.
Qed.

Lemma unquote_spec (s : list N) :
  replace [34%N] [] (replace (lit "'") [] s)
  = filter (λ x, x ≠ 34%N) (filter (λ x, x ≠ 39%N) s).
Proof.
  change (lit "'") with [39%N]. by rewrite <- !replace_single.
Qed.

Lemma unquote_id (s : list N) :
  39%N ∉ s → 34%N ∉ s →
  replace [34%N] [] (replace (lit "'") [] s) = s.
Proof.
  intros H39 H34. rewrite unquote_spec.
  rewrite (filter_all (λ x, x ≠ 39%N)).
  - apply filter_all. apply Forall_forall. intros x Hx ->. done.
  - apply Forall_forall. intros x Hx ->. done.
Qed.

Lemma starts_with_quote (s : list N) :
  39%N ∉ s → starts_with (lit "b'") s = false.
Proof.
  intros H. change (lit "b'") with [98%N; 39%N].
  destruct s as [|c1 [|c2 s]]; cbn [starts_with];
    [done|by rewrite andb_false_r|].
  destruct (N.eqb_spec 39 c2) as [<-|_]; [|by rewrite andb_false_r].
  exfalso. apply H. apply list_elem_of_further, list_elem_of_here.
Qed.

Lemma unquote_no_quote (s : list N) :
  (39%N ∉ replace [34%N] [] (replace (lit "'") [] s))
  ∧ (34%N ∉ replace [34%N] [] (replace (lit "'") [] s)).
Proof.
  rewrite unquote_spec. split; intros H.
  - apply list_elem_of_filter in H as [_ H].
    by apply list_elem_of_filter in H as [H _].
  - by apply list_elem_of_filter in H as [H _].
Qed.

(** X11: the name returned by [clean_material_name] holds neither a single
    nor a double quote, whatever the name and whether it is [bytes] or
    [str]. *)
Theorem clean_material_name_has_no_quote name :
  (39%N ∉ clean_material_name name) ∧ (34%N ∉ clean_material_name name).
Proof. unfold clean_material_name. cbv zeta. apply unquote_no_quote. Qed.

(** X12: cleaning a cleaned name changes nothing. *)
Theorem clean_material_name_idempotent name :
  clean_material_name (NameStr (clean_material_name name))
  = clean_material_name name.
Proof.
  assert ((39%N ∉ clean_material_name name)
          ∧ (34%N ∉ clean_material_name name)) as [H39 H34].
  { unfold clean_material_name. cbv zeta. apply unquote_no_quote. }
  revert H39 H34. generalize (clean_material_name name). intros r H39 H34.
  unfold clean_material_name, decode_name. cbv zeta.
  rewrite (starts_with_quote r H39). cbn [andb]. by apply unquote_id.
Qed.

(** X13: the text of a bytes literal, [b'...'], is cleaned to what stands
    between the quotes, when that holds no quote itself. *)
Theorem clean_material_name_strips_literal (s : str) :
  39%N ∉ s → 34%N ∉ s →
  clean_material_name (NameStr (lit "b'" ++ s ++ lit "'")) = s.
Proof.
  intros H39 H34. unfold clean_material_name, decode_name. cbv zeta.
  assert (Hs : starts_with (lit "b'") (lit "b'" ++ s ++ lit "'") = true)
    by done.
  assert (He : ends_with (lit "'") (lit "b'" ++ s ++ lit "'") = true).
  { unfold ends_with. by rewrite !rev_app_distr. }
  rewrite Hs, He. cbn [andb].
  assert (Hsl : slice_2_m1 (lit "b'" ++ s ++ lit "'") = s).
  { unfold slice_2_m1. rewrite !length_app. cbn [lit length app drop].
    replace (2 + (length s + 1) - 3) with (length s) by lia.
    rewrite drop_0. by rewrite take_app_length. }
  rewrite Hsl. by apply unquote_id.
Qed.

(** ** [build_vertices_array] *)

Lemma py_getitem_is_Some {A} (l : list A) (i : Z) :
  is_Some (py_getitem l i)
  ↔ (- Z.of_nat (length l) ≤ i < Z.of_nat (length l))%Z.
Proof.
  unfold py_getitem.
  destruct (Z.leb_spec 0 i) as [H0|H0].
  - rewrite lookup_lt_is_Some. lia.
  - destruct (Z.leb_spec (- Z.of_nat (length l)) i) as [H1|H1].
    + rewrite lookup_lt_is_Some. lia.
    + split; [by intros [? ?]|lia].
Qed.

Lemma py_getitem_elem {A} (l : list A) (i : Z) x :
  py_getitem l i = Some x → x ∈ l.
Proof.
  unfold py_getitem. intros H.
  destruct (0 <=? i)%Z; [by eapply list_elem_of_lookup_2|].
  destruct (- Z.of_nat (length l) <=? i)%Z; [|done].
  by eapply list_elem_of_lookup_2.
Qed.

Lemma py_getitem_map {A B} (f : A → B) (l : list A) (i : Z) :
  py_getitem (map f l) i = f <$> py_getitem l i.
Proof.
  unfold py_getitem. rewrite length_map.
  change (map f l) with (f <$> l). rewrite !list_lookup_fmap.
  by destruct (0 <=? i)%Z, (- Z.of_nat (length l) <=? i)%Z.
Qed.

(** X14: [build_vertices_array] returns exactly when every index [i] has
    [-len(points) <= i < len(points)]; it then returns one vertex for each
    index, each of them one of the points. *)
Theorem build_vertices_array_defined triangles points :
  (is_Some (build_vertices_array triangles points)
   ↔ Forall (λ i, (- Z.of_nat (length points) ≤ i
                   < Z.of_nat (length points))%Z) triangles)
  ∧ (∀ vertices,
       build_vertices_array triangles points = Some vertices →
       length vertices = length triangles
       ∧ Forall (λ v, v ∈ points) vertices).
Proof.
  unfold build_vertices_array. split.
  - rewrite mapM_is_Some. apply Forall_iff. intros i.
    apply py_getitem_is_Some.
  - intros vertices H. apply mapM_Some in H. split.
    + symmetry. by eapply Forall2_length.
    + clear -H. induction H as [|i v tris vs Hi _ IH]; [done|].
      constructor; [|done]. by eapply py_getitem_elem.
Qed.

(** X15: building the vertices from transformed points gives the
    transformed vertices: [transform_point] may be applied before or after
    [build_vertices_array]. *)
Theorem build_vertices_array_transform triangles points :
  build_vertices_array triangles (map transform_point points)
  = map transform_point <$> build_vertices_array triangles points.
Proof.
  unfold build_vertices_array.
  induction triangles as [|i triangles IH]; [done|].
  cbn [mapM]. rewrite IH, py_getitem_map.
  destruct (py_getitem points i) as [v|]; [|done]. cbn.
  by destruct (mapM (py_getitem points) triangles).
Qed.

(** ** [analyze_material_usage] *)

Lemma for_enumerate_upto {A St : Type} (body : nat → A → St → option St)
    (l : list A) :
  ∀ (Q : nat → St → Prop) i0 st,
    Q 0 st →
    (∀ k x s, l !! k = Some x → Q k s →
       ∃ s', body (i0 + k) x s = Some s' ∧ Q (S k) s') →
    ∃ st', for_enumerate body i0 l st = Some st' ∧ Q (length l) st'.
Proof.
  induction l as [|x l IH]; intros Q i0 st H0 Hstep; simpl; [by eauto|].
  destruct (Hstep 0 x st eq_refl H0) as (s1 & E & H1).
  rewrite Nat.add_0_r in E. rewrite E.
  apply (IH (λ k, Q (S k)) (S i0) s1 H1).
  intros k y s Hk Hs. destruct (Hstep (S k) y s Hk Hs) as (s' & E' & ?).
  rewrite Nat.add_succ_r in E'. eauto.
Qed.

Lemma usage_init_lookup n k :
  usage_init n !! k
  = if decide (k < n) then Some (Usage.mk ∅ ∅ ∅) else None.
Proof.
  unfold usage_init. induction n as [|n IH].
  - by destruct (decide (k < 0)); [lia|].
  - rewrite seq_S, fold_left_app. cbn [fold_left Nat.add].
    destruct (decide (k = n)) as [->|Hne].
    + rewrite lookup_insert_eq. by destruct (decide (n < S n)); [|lia].
    + rewrite lookup_insert_ne by done. rewrite IH.
      destruct (decide (k < n)), (decide (k < S n)); try done; lia.
Qed.

Lemma link_at_inj m mi li l l' : link_at m mi li l → link_at m mi li l' → l' = l.
Proof. intros (mesh & H1 & H2) (mesh' & H1' & H2'). congruence. Qed.

Lemma scan_inv_init m :
  scan_inv m (λ _ _, False) (usage_init (length (Model.materials m)), []).
Proof.
  split; cbn [fst snd].
  - intros k. rewrite usage_init_lookup.
    destruct (decide (k < length (Model.materials m))).
    + split; [done|by eauto].
    + split; [by intros [? ?]|done].
  - intros k usage mi li. rewrite usage_init_lookup.
    destruct (decide _); [|done]. intros [= <-]. cbn.
    split; [by intros ?%not_elem_of_empty|by intros [[] _]].
  - intros k usage li. rewrite usage_init_lookup.
    destruct (decide _); [|done]. intros [= <-]. cbn.
    split; [by intros ?%not_elem_of_empty|].
    by intros [mi ?%not_elem_of_empty].
  - intros k usage. rewrite usage_init_lookup.
    destruct (decide _); [|done]. by intros [= <-].
  - intros msg. split; [by intros ?%not_elem_of_nil|].
    by intros (? & ? & ? & [] & _).
Qed.

Lemma scan_inv_ext m (D D' : nat → nat → Prop) s :
  (∀ mi li l, link_at m mi li l → (D mi li ↔ D' mi li)) →
  scan_inv m D s → scan_inv m D' s.
Proof.
  intros HD [Hk Hml Hp Ha Hlog]. split; [done| |done|done|].
  - intros k usage mi li Hu. rewrite (Hml _ _ _ _ Hu). split.
    + intros [H (l & Hl & ?)]. split; [by apply (HD _ _ _ Hl)|by exists l].
    + intros [H (l & Hl & ?)]. split; [by apply (HD _ _ _ Hl)|by exists l].
  - intros msg. rewrite Hlog. split.
    + intros (mi & li & l & H & Hl & ?). exists mi, li, l.
      split; [by apply (HD _ _ _ Hl)|done].
    + intros (mi & li & l & H & Hl & ?). exists mi, li, l.
      split; [by apply (HD _ _ _ Hl)|done].
Qed.

Lemma scan_link_step m D mi li l s :
  link_at m mi li l → scan_inv m D s →
  ∃ s', scan_link m mi li l s = Some s'
        ∧ scan_inv m (λ mi' li', D mi' li' ∨ (mi' = mi ∧ li' = li)) s'.
Proof.
  intros Hl [Hk Hml Hp Ha Hlog]. unfold scan_link.
  destruct (Nat.ltb_spec (MeshLink.material l) (length (Model.materials m)))
    as [Hlt|Hge].
  - destruct (proj2 (Hk _) Hlt) as [usage Hu]. rewrite Hu.
    cbn [mbind option_bind]. eexists. split; [done|].
    split; cbn [fst snd].
    + intros k. destruct (decide (k = MeshLink.material l)) as [->|Hne].
      * rewrite lookup_insert_eq. split; [done|by eauto].
      * rewrite lookup_insert_ne by done. apply Hk.
    + intros k usage' mi' li' Hk'.
      destruct (decide (k = MeshLink.material l)) as [->|Hne].
      * rewrite lookup_insert_eq in Hk'. injection Hk' as <-.
        cbn [Usage.mesh_links].
        rewrite elem_of_union, elem_of_singleton, (Hml _ _ _ _ Hu). split.
        -- intros [[= -> ->]|[HD Hex]].
           ++ split; [by right|by exists l].
           ++ split; [by left|done].
        -- intros [[HD|[-> ->]] Hex]; [right; by split|by left].
      * rewrite lookup_insert_ne in Hk' by done.
        rewrite (Hml _ _ _ _ Hk'). split.
        -- intros [HD Hex]. split; [by left|done].
        -- intros [[HD|[-> ->]] (l' & Hl' & Hm')].
           ++ split; [done|by exists l'].
           ++ exfalso. apply Hne. rewrite <- Hm'. f_equal.
              symmetry. by eapply link_at_inj.
    + intros k usage' li' Hk'.
      destruct (decide (k = MeshLink.material l)) as [->|Hne].
      * rewrite lookup_insert_eq in Hk'. injection Hk' as <-.
        cbn [Usage.mesh_links Usage.link_positions].
        rewrite elem_of_union, elem_of_singleton, (Hp _ _ _ Hu). split.
        -- intros [->|[mi' Hin]].
           ++ exists mi. apply elem_of_union. left. by apply elem_of_singleton.
           ++ exists mi'. apply elem_of_union. by right.
        -- intros [mi' [[= -> ->]%elem_of_singleton|Hin]%elem_of_union].
           ++ by left.
           ++ right. by exists mi'.
      * rewrite lookup_insert_ne in Hk' by done. by apply (Hp k).
    + intros k usage' Hk'.
      destruct (decide (k = MeshLink.material l)) as [->|Hne].
      * rewrite lookup_insert_eq in Hk'. injection Hk' as <-.
        cbn [Usage.animations]. by apply (Ha _ _ Hu).
      * rewrite lookup_insert_ne in Hk' by done. by apply (Ha _ _ Hk').
    + intros msg. rewrite Hlog. split.
      * intros (mi' & li' & l' & HD & ?). exists mi', li', l'.
        split; [by left|done].
      * intros (mi' & li' & l' & [HD|[-> ->]] & Hl' & Hge & ->).
        -- by exists mi', li', l'.
        -- exfalso. rewrite (link_at_inj _ _ _ _ _ Hl Hl') in Hge. lia.
  - eexists. split; [done|]. split; cbn [fst snd]; [done| |done|done|].
    + intros k usage mi' li' Hk'. rewrite (Hml _ _ _ _ Hk'). split.
      * intros [HD Hex]. split; [by left|done].
      * intros [[HD|[-> ->]] (l' & Hl' & Hm')].
        -- split; [done|by exists l'].
        -- exfalso. rewrite (link_at_inj _ _ _ _ _ Hl Hl') in Hm'.
           assert (k < length (Model.materials m)) by (apply Hk; eauto).
           lia.
    + intros msg. rewrite elem_of_app, list_elem_of_singleton, Hlog. split.
      * intros [(mi' & li' & l' & HD & ?)| ->].
        -- exists mi', li', l'. split; [by left|done].
        -- exists mi, li, l. split_and!; [by right|done|done|done].
      * intros (mi' & li' & l' & [HD|[-> ->]] & Hl' & Hge' & ->).
        -- left. by exists mi', li', l'.
        -- right. by rewrite (link_at_inj _ _ _ _ _ Hl Hl').
Qed.

Lemma scan_mesh_step m mi mesh s :
  Model.meshes m !! mi = Some mesh →
  scan_inv m (λ mi' _, mi' < mi) s →
  ∃ s', scan_mesh m mi mesh s = Some s'
        ∧ scan_inv m (λ mi' _, mi' < S mi) s'.
Proof.
  intros Hmesh Hinv. unfold scan_mesh.
  destruct (for_enumerate_upto (scan_link m mi) (Mesh.links mesh)
              (λ k, scan_inv m (λ mi' li', mi' < mi ∨ (mi' = mi ∧ li' < k)))
              0 s) as (s' & E & Hs').
  - eapply scan_inv_ext; [|exact Hinv]. intros mi' li' _ _. simpl. lia.
  - intros k l t Hk Ht.
    destruct (scan_link_step m
                (λ mi' li', mi' < mi ∨ (mi' = mi ∧ li' < k)) mi k l t)
      as (t' & Et & Ht');
      [by exists mesh|exact Ht|].
    exists t'. split; [done|].
    eapply scan_inv_ext; [|exact Ht']. intros mi' li' _ _. simpl. lia.
  - exists s'. split; [done|].
    eapply scan_inv_ext; [|exact Hs']. intros mi' li' l' (mesh' & H1 & H2).
    simpl. apply lookup_lt_Some in H2.
    destruct (decide (mi' = mi)) as [->|?]; [|lia].
    assert (mesh' = mesh) as -> by congruence. lia.
Qed.

Lemma scan_total m :
  ∃ s, for_enumerate (scan_mesh m) 0 (Model.meshes m)
         (usage_init (length (Model.materials m)), []) = Some s
       ∧ scan_inv m (λ _ _, True) s.
Proof.
  destruct (for_enumerate_upto (scan_mesh m) (Model.meshes m)
              (λ k, scan_inv m (λ mi' _, mi' < k)) 0
              (usage_init (length (Model.materials m)), []))
    as (s & E & Hs).
  - eapply scan_inv_ext; [|apply scan_inv_init]. intros mi li _ _. simpl. lia.
  - intros k mesh t Hk Ht. by apply scan_mesh_step.
  - exists s. split; [done|].
    eapply scan_inv_ext; [|exact Hs]. intros mi li l (mesh & H1 & _).
    apply lookup_lt_Some in H1. simpl. tauto.
Qed.

Lemma frame_link_at_inj m ai fi li l l' :
  frame_link_at m ai fi li l → frame_link_at m ai fi li l' → l' = l.
Proof.
  intros (a & mi & H1 & H2 & H3) (a' & mi' & H1' & H2' & H3').
  assert (a' = a) as -> by congruence.
  assert (mi' = mi) as -> by congruence.
  by eapply link_at_inj.
Qed.

Lemma track_inv_init m D s :
  scan_inv m D s → track_inv m s.1 (λ _ _ _, False) s.1.
Proof.
  intros [Hk _ _ Ha _]. split; [done|done|done|].
  intros k usage ai Hu. rewrite (Ha _ _ Hu).
  split; [by intros ?%not_elem_of_empty|by intros (? & ? & ? & [] & _)].
Qed.

Lemma track_inv_ext m u0 (E E' : nat → nat → nat → Prop) u :
  (∀ ai fi li l, frame_link_at m ai fi li l → (E ai fi li ↔ E' ai fi li)) →
  track_inv m u0 E u → track_inv m u0 E' u.
Proof.
  intros HE [Hk Hml Hp Ha]. split; [done|done|done|].
  intros k usage ai Hu. rewrite (Ha _ _ _ Hu). split.
  - intros (fi & li & l & H & Hl & ?). exists fi, li, l.
    split; [by apply (HE _ _ _ _ Hl)|done].
  - intros (fi & li & l & H & Hl & ?). exists fi, li, l.
    split; [by apply (HE _ _ _ _ Hl)|done].
Qed.

Lemma track_link_step m u0 E ai fi li l u :
  frame_link_at m ai fi li l → track_inv m u0 E u →
  ∃ u', track_link m ai li l u = Some u'
        ∧ track_inv m u0
            (λ ai' fi' li', E ai' fi' li' ∨ (ai' = ai ∧ fi' = fi ∧ li' = li))
            u'.
Proof.
  intros Hl [Hk Hml Hp Ha]. unfold track_link.
  destruct (Nat.ltb_spec (MeshLink.material l) (length (Model.materials m)))
    as [Hlt|Hge].
  - destruct (proj2 (Hk _) Hlt) as [usage Hu]. rewrite Hu.
    cbn [mbind option_bind]. eexists. split; [done|]. split.
    + intros k. destruct (decide (k = MeshLink.material l)) as [->|Hne].
      * rewrite lookup_insert_eq. split; [done|by eauto].
      * rewrite lookup_insert_ne by done. apply Hk.
    + intros k. destruct (decide (k = MeshLink.material l)) as [->|Hne].
      * rewrite lookup_insert_eq, <- Hml, Hu. done.
      * rewrite lookup_insert_ne by done. apply Hml.
    + intros k. destruct (decide (k = MeshLink.material l)) as [->|Hne].
      * rewrite lookup_insert_eq, <- Hp, Hu. done.
      * rewrite lookup_insert_ne by done. apply Hp.
    + intros k usage' ai' Hk'.
      destruct (decide (k = MeshLink.material l)) as [->|Hne].
      * rewrite lookup_insert_eq in Hk'. injection Hk' as <-.
        cbn [Usage.animations].
        rewrite elem_of_union, elem_of_singleton, (Ha _ _ _ Hu). split.
        -- intros [->|(fi' & li' & l' & HE & ?)].
           ++ exists fi, li, l. split_and!; [by right|done|done].
           ++ exists fi', li', l'. split; [by left|done].
        -- intros (fi' & li' & l' & [HE|(-> & -> & ->)] & Hl' & Hm').
           ++ right. by exists fi', li', l'.
           ++ by left.
      * rewrite lookup_insert_ne in Hk' by done.
        rewrite (Ha _ _ _ Hk'). split.
        -- intros (fi' & li' & l' & HE & ?). exists fi', li', l'.
           split; [by left|done].
        -- intros (fi' & li' & l' & [HE|(-> & -> & ->)] & Hl' & Hm').
           ++ by exists fi', li', l'.
           ++ exfalso. apply Hne. rewrite <- Hm'. f_equal.
              symmetry. by eapply frame_link_at_inj.
  - eexists. split; [done|]. split; [done|done|done|].
    intros k usage ai' Hk'. rewrite (Ha _ _ _ Hk'). split.
    + intros (fi' & li' & l' & HE & ?). exists fi', li', l'.
      split; [by left|done].
    + intros (fi' & li' & l' & [HE|(-> & -> & ->)] & Hl' & Hm').
      * by exists fi', li', l'.
      * exfalso. rewrite (frame_link_at_inj _ _ _ _ _ _ Hl Hl') in Hm'.
        assert (k < length (Model.materials m)) by (apply Hk; eauto).
        lia.
Qed.

Lemma track_frame_step m u0 ai a fi mi u :
  Model.animations m !! ai = Some a →
  Animation.meshes a !! fi = Some mi →
  track_inv m u0 (λ ai' fi' _, ai' < ai ∨ (ai' = ai ∧ fi' < fi)) u →
  ∃ u', track_frame m ai fi mi u = Some u'
        ∧ track_inv m u0
            (λ ai' fi' _, ai' < ai ∨ (ai' = ai ∧ fi' < S fi)) u'.
Proof.
  intros Ha Hfi Hinv. unfold track_frame.
  destruct (Model.meshes m !! mi) as [mesh|] eqn:Hmesh.
  - destruct (for_enumerate_upto (track_link m ai) (Mesh.links mesh)
                (λ k, track_inv m u0
                        (λ ai' fi' li',
                           (ai' < ai ∨ (ai' = ai ∧ fi' < fi))
                           ∨ (ai' = ai ∧ fi' = fi ∧ li' < k)))
                0 u) as (u' & E & Hu').
    + eapply track_inv_ext; [|exact Hinv].
      intros ai' fi' li' _ _. simpl. lia.
    + intros k l t Hk Ht.
      destruct (track_link_step m u0
                  (λ ai' fi' li',
                     (ai' < ai ∨ (ai' = ai ∧ fi' < fi))
                     ∨ (ai' = ai ∧ fi' = fi ∧ li' < k))
                  ai fi k l t) as (t' & Et & Ht');
        [|exact Ht|].
      { exists a, mi. split_and!; [done|done|]. by exists mesh. }
      exists t'. split; [done|].
      eapply track_inv_ext; [|exact Ht'].
      intros ai' fi' li' _ _. simpl. lia.
    + exists u'. split; [done|].
      eapply track_inv_ext; [|exact Hu'].
      intros ai' fi' li' l' (a' & mi' & H1 & H2 & mesh' & H3 & H4).
      simpl. apply lookup_lt_Some in H4.
      destruct (decide (ai' = ai)) as [->|?]; [|lia].
      destruct (decide (fi' = fi)) as [->|?]; [|lia].
      assert (a' = a) as -> by congruence.
      assert (mi' = mi) as -> by congruence.
      assert (mesh' = mesh) as -> by congruence. lia.
  - exists u. split; [done|].
    eapply track_inv_ext; [|exact Hinv].
    intros ai' fi' li' l' (a' & mi' & H1 & H2 & mesh' & H3 & H4).
    simpl.
    destruct (decide (ai' = ai)) as [->|?]; [|lia].
    destruct (decide (fi' = fi)) as [->|?]; [|lia].
    assert (a' = a) as -> by congruence.
    assert (mi' = mi) as -> by congruence. congruence.
Qed.

Lemma track_animation_step m u0 ai a u :
  Model.animations m !! ai = Some a →
  track_inv m u0 (λ ai' _ _, ai' < ai) u →
  ∃ u', track_animation m ai a u = Some u'
        ∧ track_inv m u0 (λ ai' _ _, ai' < S ai) u'.
Proof.
  intros Ha Hinv. unfold track_animation.
  destruct (for_enumerate_upto (track_frame m ai) (Animation.meshes a)
              (λ k, track_inv m u0
                      (λ ai' fi' _, ai' < ai ∨ (ai' = ai ∧ fi' < k)))
              0 u) as (u' & E & Hu').
  - eapply track_inv_ext; [|exact Hinv]. intros ai' fi' li' _ _. simpl. lia.
  - intros k mi t Hk Ht. by apply (track_frame_step m u0 ai a k mi t).
  - exists u'. split; [done|].
    eapply track_inv_ext; [|exact Hu'].
    intros ai' fi' li' l' (a' & mi' & H1 & H2 & _).
    simpl. apply lookup_lt_Some in H2.
    destruct (decide (ai' = ai)) as [->|?]; [|lia].
    assert (a' = a) as -> by congruence. lia.
Qed.

Lemma track_total m u0 :
  track_inv m u0 (λ _ _ _, False) u0 →
  ∃ u, for_enumerate (track_animation m) 0 (Model.animations m) u0 = Some u
       ∧ track_inv m u0 (λ _ _ _, True) u.
Proof.
  intros Hinv.
  destruct (for_enumerate_upto (track_animation m) (Model.animations m)
              (λ k, track_inv m u0 (λ ai' _ _, ai' < k)) 0 u0)
    as (u & E & Hu).
  - eapply track_inv_ext; [|exact Hinv]. intros ai fi li _ _. simpl. lia.
  - intros k a t Hk Ht. by apply track_animation_step.
  - exists u. split; [done|].
    eapply track_inv_ext; [|exact Hu]. intros ai fi li l (a & mi & H1 & _).
    apply lookup_lt_Some in H1. simpl. tauto.
Qed.

(** The function returns, and its result is described by the two
    invariants. *)
Lemma analyze_material_usage_spec m :
  ∃ s u,
    analyze_material_usage m = Some (u, s.2 ++ usage_summary m u)
    ∧ scan_inv m (λ _ _, True) s
    ∧ track_inv m s.1 (λ _ _ _, True) u.
Proof.
  destruct (scan_total m) as (s & Es & Hs).
  destruct (track_total m s.1 (track_inv_init m _ s Hs)) as (u & Eu & Hu).
  exists s, u. split; [|done].
  unfold analyze_material_usage. rewrite Es. cbn [mbind option_bind].
  by rewrite Eu.
Qed.

Lemma usage_summary_no_warning m u mi li k :
  InvalidMaterial mi li k ∉ usage_summary m u.
Proof.
  unfold usage_summary. intros [?|H]%elem_of_cons; [done|].
  apply list_elem_of_In, in_concat in H as (msgs & Hmsgs & Hin).
  apply in_map_iff in Hmsgs as (i & <- & _).
  destruct (Model.materials m !! i), (u !! i); try done.
  cbn in Hin. by intuition.
Qed.

(** X16: [analyze_material_usage] raises no exception, whatever the
    model, and the dict it returns has exactly the keys
    [0 .. len(model.materials) - 1]. *)
Theorem analyze_material_usage_keys m :
  ∃ u out,
    analyze_material_usage m = Some (u, out)
    ∧ ∀ k, is_Some (u !! k) ↔ k < length (Model.materials m).
Proof.
  destruct (analyze_material_usage_spec m) as (s & u & E & _ & Hu).
  exists u, (s.2 ++ usage_summary m u). split; [done|].
  apply (track_keys _ _ _ _ Hu).
Qed.

(** X17: the entry of material [k] lists under "mesh_links" the pairs
    (mesh, position) of the links whose material is [k], and under
    "link_positions" the positions of those links. *)
Theorem usage_lists_the_links m u out k usage :
  analyze_material_usage m = Some (u, out) →
  u !! k = Some usage →
  (∀ mi li, (mi, li) ∈ Usage.mesh_links usage
            ↔ ∃ l, link_at m mi li l ∧ MeshLink.material l = k)
  ∧ (∀ li, li ∈ Usage.link_positions usage
           ↔ ∃ mi l, link_at m mi li l ∧ MeshLink.material l = k).
Proof.
  destruct (analyze_material_usage_spec m) as (s & u' & E & Hs & Hu).
  rewrite E. intros [= <- <-] Hk.
  pose proof (track_mesh_links _ _ _ _ Hu k) as Hml.
  pose proof (track_positions _ _ _ _ Hu k) as Hp.
  rewrite Hk in Hml, Hp. cbn in Hml, Hp.
  destruct (s.1 !! k) as [usage0|] eqn:E0; [|done].
  cbn in Hml, Hp. injection Hml as Hml. injection Hp as Hp.
  assert (Hlinks : ∀ mi li, (mi, li) ∈ Usage.mesh_links usage
            ↔ ∃ l, link_at m mi li l ∧ MeshLink.material l = k).
  { intros mi li. rewrite Hml, (scan_mesh_links _ _ _ Hs _ _ _ _ E0).
    split; [by intros [_ ?]|by split]. }
  split; [done|]. intros li.
  rewrite Hp, (scan_positions _ _ _ Hs _ _ _ E0). rewrite <- Hml.
  split.
  - intros [mi Hin]. exists mi. by apply Hlinks.
  - intros (mi & Hin). exists mi. by apply Hlinks.
Qed.

(** X18: the entry of material [k] lists under "animations" the
    animations that have a frame whose mesh has a link of material [k]. *)
Theorem usage_lists_the_animations m u out k usage ai :
  analyze_material_usage m = Some (u, out) →
  u !! k = Some usage →
  ai ∈ Usage.animations usage
  ↔ ∃ fi li l, frame_link_at m ai fi li l ∧ MeshLink.material l = k.
Proof.
  destruct (analyze_material_usage_spec m) as (s & u' & E & Hs & Hu).
  rewrite E. intros [= <- <-] Hk.
  rewrite (track_animations _ _ _ _ Hu _ _ _ Hk).
  split; [by intros (fi & li & l & _ & ?); exists fi, li, l|].
  intros (fi & li & l & ?). by exists fi, li, l.
Qed.

(** X19: a warning names mesh [mi], position [li] and material [k]
    exactly when the link at that place has material [k] and the model
    has no material [k]. *)
Theorem usage_warns_of_invalid_materials m u out mi li k :
  analyze_material_usage m = Some (u, out) →
  InvalidMaterial mi li k ∈ out
  ↔ ∃ l, link_at m mi li l ∧ MeshLink.material l = k
         ∧ length (Model.materials m) ≤ k.
Proof.
  destruct (analyze_material_usage_spec m) as (s & u' & E & Hs & Hu).
  rewrite E. intros [= <- <-].
  rewrite elem_of_app, (scan_log _ _ _ Hs). split.
  - intros [(mi' & li' & l & _ & Hl & Hge & [= -> -> ->])|H].
    + by exists l.
    + by apply usage_summary_no_warning in H.
  - intros (l & Hl & <- & Hge). left. by exists mi, li, l.
Qed.

(** ** The document and the analysis of the materials *)

Lemma process_link_meshes m a ai fi li l st st' :
  model_inv m st →
  plink a ai fi li l st = Some st' →
  ∃ new, meshes st' = meshes st ++ new
         ∧ Forall (λ g, ∃ p, GMesh.primitives g = [p]
                             ∧ Primitive.material p = bound_material m l) new.
Proof.
  intros Hinv H. destruct (skipped_link (model st) l) eqn:Hs.
  - destruct (process_link_skip pack_f pack_I a ai fi li l st Hs) as [msg E].
    rewrite E in H. injection H as <-. exists []. simpl.
    by rewrite app_nil_r.
  - destruct (process_link_emitted pack_f pack_I _ _ _ _ _ _ _ Hs H)
      as (tris & pts & uv & pos & uvb & idx & mins & maxs & Hem).
    eexists. split; [apply (em_meshes _ _ _ _ _ _ _ _ _ _ _ _ _ _ _ _ _ Hem)|].
    apply Forall_singleton. eexists. split; [done|]. simpl.
    apply (bound_material_inv m st l Hinv).
Qed.

Lemma export_mesh_from m st :
  export m = Some st → Forall (mesh_from m) (meshes st).
Proof.
  intros H.
  enough (model_inv m st ∧ Forall (mesh_from m) (meshes st)) as [_ ?] by done.
  revert H.
  apply (for_enumerate_inv _
           (λ s, model_inv m s ∧ Forall (mesh_from m) (meshes s)));
    [|split; [apply model_inv_initial|by apply Forall_nil]].
  intros ai a s s' Ha [Hm Hg] Hb. cbn [Nat.add] in Hb.
  unfold process_animation in Hb. cbv zeta in Hb. revert Hb.
  apply (for_enumerate_inv _
           (λ s, model_inv m s ∧ Forall (mesh_from m) (meshes s)));
    [|split; [by apply (model_inv_same_model m s)|done]].
  clear s s' Hm Hg. intros fi mi s s' Hfi [Hm Hg] Hb. cbn [Nat.add] in Hb.
  unfold process_frame in Hb. rewrite (inv_meshes _ _ Hm) in Hb.
  destruct (Model.meshes m !! mi) as [mesh|] eqn:Hmesh.
  2: { injection Hb as <-. split; [|done].
       by apply (model_inv_same_model m s). }
  revert Hb.
  apply (for_enumerate_inv _
           (λ s, model_inv m s ∧ Forall (mesh_from m) (meshes s)));
    [|by split].
  clear s s' Hm Hg. intros li l s s' Hli [Hm Hg] Hb. cbn [Nat.add] in Hb.
  split; [by eapply process_link_inv|].
  destruct (process_link_meshes m _ _ _ _ _ _ _ Hm Hb) as (new & -> & Hnew).
  apply Forall_app. split; [done|].
  eapply Forall_impl; [exact Hnew|]. intros g (p & Hp & Hmat).
  exists ai, fi, li, l, p. split_and!; [|done|done].
  exists a, mi. split_and!; [done|done|]. by exists mesh.
Qed.

(** X20: every primitive of the document is bound to a material that
    [analyze_material_usage] reports as used, by a link and by an
    animation; or it is bound to material 0 because a link names a
    material the model does not have, and the analysis warns of that
    link. *)
Theorem bound_materials_are_reported m st u out g p :
  export m = Some st →
  analyze_material_usage m = Some (u, out) →
  g ∈ meshes st → p ∈ GMesh.primitives g →
  (∃ usage, u !! Primitive.material p = Some usage
            ∧ Usage.mesh_links usage ≠ ∅
            ∧ Usage.animations usage ≠ ∅)
  ∨ (Primitive.material p = 0
     ∧ ∃ mi li k, InvalidMaterial mi li k ∈ out).
Proof.
  intros Hexp Han Hg Hp.
  pose proof (export_mesh_from m st Hexp) as Hfrom.
  rewrite Forall_forall in Hfrom.
  destruct (Hfrom g Hg) as (ai & fi & li & l & p' & Hl & Hprims & Hmat).
  rewrite Hprims in Hp. apply list_elem_of_singleton in Hp as ->.
  destruct (analyze_material_usage_spec m) as (s & u' & E & Hs & Hu).
  rewrite E in Han. injection Han as <- <-.
  rewrite Hmat. unfold bound_material.
  destruct (Nat.leb_spec (length (Model.materials m)) (MeshLink.material l))
    as [Hge|Hlt].
  - right. split; [done|].
    destruct Hl as (a & mi & _ & _ & Hl).
    exists mi, li, (MeshLink.material l). apply elem_of_app. left.
    apply (scan_log _ _ _ Hs). by exists mi, li, l.
  - left. destruct (proj2 (track_keys _ _ _ _ Hu _) Hlt) as [usage Hk].
    exists usage. split_and!; [done| |].
    + pose proof (track_mesh_links _ _ _ _ Hu (MeshLink.material l)) as Hml.
      rewrite Hk in Hml. cbn in Hml.
      destruct (s.1 !! MeshLink.material l) as [usage0|] eqn:E0; [|done].
      injection Hml as Hml. rewrite Hml.
      destruct Hl as (a & mi & _ & _ & Hl).
      assert ((mi, li) ∈ Usage.mesh_links usage0) as Hin.
      { apply (scan_mesh_links _ _ _ Hs _ _ _ _ E0). split; [done|].
        by exists l. }
      intros Hempty. rewrite Hempty in Hin. by apply not_elem_of_empty in Hin.
    + assert (ai ∈ Usage.animations usage) as Hin.
      { apply (track_animations _ _ _ _ Hu _ _ _ Hk).
        by exists fi, li, l. }
      intros Hempty. rewrite Hempty in Hin. by apply not_elem_of_empty in Hin.
Qed.

(** ** Nothing is dropped in silence *)

Lemma for_enumerate_reports {A St : Type} (body : nat → A → St → option St)
    (I : St → Prop) (grows : St → St → Prop) (l : list A) :
  (∀ s, grows s s) →
  (∀ s1 s2 s3, grows s1 s2 → grows s2 s3 → grows s1 s3) →
  ∀ (R : nat → A → St → Prop) i0 st st',
    (∀ k x s s', R k x s → grows s s' → R k x s') →
    (∀ k x s s', l !! k = Some x → I s → body (i0 + k) x s = Some s' →
       I s' ∧ grows s s' ∧ R k x s') →
    I st → for_enumerate body i0 l st = Some st' →
    I st' ∧ grows st st' ∧ ∀ k x, l !! k = Some x → R k x st'.
Proof.
  intros Hrefl Htrans.
  induction l as [|x l IH]; intros R i0 st st' Hstable Hbody HI H; simpl in H.
  - injection H as <-. split_and!; [done|done|]. by intros [|?] ?.
  - destruct (body i0 x st) as [s1|] eqn:E; [|done].
    destruct (Hbody 0 x st s1 eq_refl HI) as (HI1 & Hg1 & HR1).
    { by rewrite Nat.add_0_r. }
    destruct (IH (λ k, R (S k)) (S i0) s1 st') as (HI' & Hg' & HR');
      [by eauto| |done|done|].
    { intros k y s s' Hk Hs Hb. apply (Hbody (S k)); [done|done|].
      by rewrite Nat.add_succ_r. }
    split_and!; [done|by eauto|].
    intros [|k] y Hk; [|by apply HR'].
    injection Hk as <-. by eapply Hstable.
Qed.

Lemma log_grows_refl st : log_grows st st.
Proof. by intros msg. Qed.

Lemma log_grows_trans st1 st2 st3 :
  log_grows st1 st2 → log_grows st2 st3 → log_grows st1 st3.
Proof. intros H1 H2 msg Hin. by apply H2, H1. Qed.

Lemma process_link_reports m a ai fi li l st st' :
  model_inv m st → plink a ai fi li l st = Some st' →
  model_inv m st' ∧ log_grows st st'
  ∧ (skipped_link m l = true →
     ∃ msg, skip_message a fi li msg ∧ msg ∈ log st').
Proof.
  intros Hinv H. split; [by eapply process_link_inv|].
  rewrite <- (skipped_link_inv m st l Hinv).
  destruct (skipped_link (model st) l) eqn:Hs.
  - destruct (process_link_skip' pack_f pack_I a ai fi li l st Hs)
      as (msg & Hmsg & E).
    rewrite E in H. injection H as <-. split.
    + intros msg' Hin. simpl. apply elem_of_app. by left.
    + intros _. exists msg. split; [done|]. simpl.
      apply elem_of_app. right. by apply list_elem_of_singleton.
  - destruct (process_link_emitted pack_f pack_I _ _ _ _ _ _ _ Hs H)
      as (tris & pts & uv & pos & uvb & idx & mins & maxs & Hem).
    split; [|done]. exact (em_log _ _ _ _ _ _ _ _ _ _ _ _ _ _ _ _ _ Hem).
Qed.

Lemma process_frame_reports m a ai fi mi st st' :
  model_inv m st → pframe a ai fi mi st = Some st' →
  model_inv m st' ∧ log_grows st st' ∧ frame_reported m a fi mi st'.
Proof.
  intros Hinv H. unfold process_frame in H. unfold frame_reported.
  rewrite (inv_meshes _ _ Hinv) in H.
  destruct (Model.meshes m !! mi) as [mesh|].
  - destruct (for_enumerate_reports (plink a ai fi) (model_inv m) log_grows
                (Mesh.links mesh) log_grows_refl
                log_grows_trans
                (λ li l s,
                   skipped_link m l = true →
                   ∃ msg, skip_message a fi li msg ∧ msg ∈ log s)
                0 st st') as (HI & Hg & HR); [| |done|done|by eauto].
    + intros li l s s' HR Hg Hs. destruct (HR Hs) as (msg & ? & ?).
      exists msg. split; [done|]. by apply Hg.
    + intros li l s s' _ Hs Hb. cbn [Nat.add] in Hb.
      by eapply process_link_reports.
  - injection H as <-. split_and!.
    + by apply (model_inv_same_model m st).
    + intros msg' Hin. simpl. apply elem_of_app. by left.
    + simpl. apply elem_of_app. right. by apply list_elem_of_singleton.
Qed.

Lemma frame_reported_grows m a fi mi st st' :
  frame_reported m a fi mi st → log_grows st st' →
  frame_reported m a fi mi st'.
Proof.
  unfold frame_reported. intros HR Hg.
  destruct (Model.meshes m !! mi) as [mesh|]; [|by apply Hg].
  intros li l Hl Hs. destruct (HR li l Hl Hs) as (msg & ? & ?).
  exists msg. split; [done|]. by apply Hg.
Qed.

Lemma process_animation_reports m ai a st st' :
  model_inv m st → panimation ai a st = Some st' →
  model_inv m st' ∧ log_grows st st'
  ∧ ∀ fi mi, Animation.meshes a !! fi = Some mi →
             frame_reported m a fi mi st'.
Proof.
  intros Hinv H. unfold process_animation in H. cbv zeta in H.
  destruct (for_enumerate_reports (pframe a ai) (model_inv m) log_grows
              (Animation.meshes a) log_grows_refl log_grows_trans
              (λ fi mi s, frame_reported m a fi mi s)
              0 (set_anim_name_indexer
                   (bump_indexer (decode_name (Animation.name a))
                      (anim_name_indexer st)) st) st')
    as (HI & Hg & HR).
  - intros fi mi s s'. apply frame_reported_grows.
  - intros fi mi s s' _ Hs Hb. cbn [Nat.add] in Hb.
    by eapply process_frame_reports.
  - by apply (model_inv_same_model m st).
  - exact H.
  - split_and!; [done|exact Hg|done].
Qed.

(** X23: a run that completes drops nothing in silence.  For every frame
    of every animation, either the mesh index of the frame is out of
    range and the log says so, naming the index and the animation; or
    the mesh exists, and for each of its links that is skipped the log
    holds a message that names the animation, the frame and the position
    of the link. *)
Theorem skipped_work_is_reported m st ai a fi mi :
  export m = Some st →
  Model.animations m !! ai = Some a →
  Animation.meshes a !! fi = Some mi →
  frame_reported m a fi mi st.
Proof.
  intros H Ha Hfi.
  destruct (for_enumerate_reports panimation (model_inv m) log_grows
              (Model.animations m) log_grows_refl
              log_grows_trans
              (λ _ a s, ∀ fi mi, Animation.meshes a !! fi = Some mi →
                                 frame_reported m a fi mi s)
              0 (initial_state m) st) as (HI & Hg & HR);
    [| |apply model_inv_initial|exact H|by eapply HR].
  - intros _ a' s s' HR' Hg fi' mi' Hfi'.
    eapply frame_reported_grows; [by apply HR'|done].
  - intros ai' a' s s' _ Hs Hb. cbn [Nat.add] in Hb.
    by eapply process_animation_reports.
Qed.

(** ** The option [--animation] *)

(** X21: with [--animation k] every node comes from animation [k] of the
    decoded model, and its name carries the index 00 whatever [k] is. *)
Theorem selected_animation_names k m m' st n :
  select_animation k m = Some m' →
  export m' = Some st →
  n ∈ nodes st →
  (0 ≤ k)%Z
  ∧ ∃ a fi mi mesh l,
      Model.animations m !! Z.to_nat k = Some a
      ∧ Animation.meshes a !! fi = Some mi
      ∧ Model.meshes m !! mi = Some mesh
      ∧ l ∈ Mesh.links mesh
      ∧ Node.name n =
          clean (decode_name (Animation.name a) ++ lit "_00_frame"
                 ++ format_02d fi ++ lit "_"
                 ++ material_name_of m (bound_material m l)).
Proof.
  unfold select_animation. intros Hsel Hexp Hn.
  assert (names_inv m' st) as [_ Hnames].
  { revert Hexp. apply (for_enumerate_inv _ (names_inv m')).
    - intros ai a' s s' Ha' Hs Hb. cbn [Nat.add] in Hb.
      by eapply process_animation_names.
    - split; [apply model_inv_initial|]. simpl. by apply Forall_nil. }
  destruct (Z.ltb_spec k 0) as [?|Hk]; [done|]. cbn [orb] in Hsel.
  destruct (Z.leb_spec (Z.of_nat (length (Model.animations m))) k);
    [done|].
  destruct (Model.animations m !! Z.to_nat k) as [a|] eqn:Ha; [|done].
  cbn [mbind option_bind] in Hsel. injection Hsel as <-.
  split; [done|].
  rewrite Forall_forall in Hnames.
  destruct (Hnames n Hn) as (ai & a' & fi & mi & mesh & l & Ha' & Hfi & Hmesh
                             & Hl & Hname).
  cbn [Model.animations] in Ha'.
  destruct ai as [|ai]; [|by destruct ai]. injection Ha' as <-.
  exists a, fi, mi, mesh, l. split_and!; [done|done|done|done|].
  exact Hname.
Qed.

End Coverage.

(** ** The properties above on the sample models *)

Section CoverageClosed.

Local Abbreviation pf := LittleEndian.pack_f.
Local Abbreviation pI := LittleEndian.pack_I.

Lemma le_pack_f_length x b : pf x = Some b → length b = 4.
Proof. by intros [= <-]. Qed.

Lemma le_pack_I_length i b : pI i = Some b → length b = 4.
Proof.
  unfold LittleEndian.pack_I. destruct (i <? 4294967296)%N; [|done].
  by intros [= <-].
Qed.

Lemma run_only_pads_uv_witness :
  Model.name (model (Samples.final Samples.short_uv))
  = Model.name Samples.short_uv
  ∧ Model.materials (model (Samples.final Samples.short_uv))
    = Model.materials Samples.short_uv
  ∧ Model.meshes (model (Samples.final Samples.short_uv))
    = Model.meshes Samples.short_uv
  ∧ Model.animations (model (Samples.final Samples.short_uv))
    = Model.animations Samples.short_uv
  ∧ Model.triangle_data (model (Samples.final Samples.short_uv))
    = Model.triangle_data Samples.short_uv
  ∧ Model.points_data (model (Samples.final Samples.short_uv))
    = Model.points_data Samples.short_uv
  ∧ length (Model.texture_coordinates_data
              (model (Samples.final Samples.short_uv)))
    = length (Model.texture_coordinates_data Samples.short_uv)
  ∧ ∀ i orig,
      Model.texture_coordinates_data Samples.short_uv !! i = Some orig →
      ∃ k, Model.texture_coordinates_data
             (model (Samples.final Samples.short_uv)) !! i
           = Some (orig ++ replicate k (0, 0)%float).
Proof.
  apply (run_only_pads_uv pf pI Samples.short_uv
           (Samples.final Samples.short_uv)).
  vm_compute. reflexivity.
Defined.

Lemma material_table_passthrough_witness :
  length (materials (Samples.final Cases.mixed))
  = length (Model.materials Cases.mixed)
  ∧ ∀ i material,
      Model.materials Cases.mixed !! i = Some material →
      materials (Samples.final Cases.mixed) !! i
      = Some (GMaterial.mk
                (lit "material_" ++ format_02d i ++ lit "_"
                 ++ decode_name (Material.name material))
                i (decode_name (Material.name material))).
Proof.
  apply (material_table_passthrough pf pI Cases.mixed
           (Samples.final Cases.mixed)).
  vm_compute. reflexivity.
Defined.

Lemma document_references_resolve_witness :
  ∃ g p ap at' ax,
    meshes (Samples.final Cases.mixed)
      !! Node.mesh (Cases.first_node Cases.mixed) = Some g
    ∧ GMesh.primitives g = [p]
    ∧ accessors (Samples.final Cases.mixed) !! Primitive.POSITION p = Some ap
    ∧ accessors (Samples.final Cases.mixed) !! Primitive.TEXCOORD_0 p
      = Some at'
    ∧ accessors (Samples.final Cases.mixed) !! Primitive.indices p = Some ax
    ∧ Accessor.type ap = VEC3 ∧ Accessor.componentType ap = FLOAT
    ∧ Accessor.bufferView ap = 0
    ∧ is_Some (Accessor.min ap) ∧ is_Some (Accessor.max ap)
    ∧ Accessor.type at' = VEC2 ∧ Accessor.componentType at' = FLOAT
    ∧ Accessor.bufferView at' = 0 ∧ Accessor.count at' = Accessor.count ap
    ∧ Accessor.type ax = SCALAR ∧ Accessor.componentType ax = UNSIGNED_INT
    ∧ Accessor.bufferView ax = 1.
Proof.
  apply (document_references_resolve pf pI Cases.mixed
           (Samples.final Cases.mixed) (Cases.first_node Cases.mixed)).
  - vm_compute. reflexivity.
  - vm_compute. apply list_elem_of_here.
Defined.

Lemma one_mesh_per_node_witness :
  length (meshes (Samples.final Samples.bad_middle))
  = length (nodes (Samples.final Samples.bad_middle))
  ∧ length (accessors (Samples.final Samples.bad_middle))
    = 3 * length (nodes (Samples.final Samples.bad_middle))
  ∧ (∀ i n, nodes (Samples.final Samples.bad_middle) !! i = Some n →
            Node.mesh n = i)
  ∧ (∀ i j n1 n2,
       nodes (Samples.final Samples.bad_middle) !! i = Some n1 →
       nodes (Samples.final Samples.bad_middle) !! j = Some n2 →
       Node.mesh n1 = Node.mesh n2 → i = j).
Proof.
  apply (one_mesh_per_node pf pI Samples.bad_middle
           (Samples.final Samples.bad_middle)).
  vm_compute. reflexivity.
Defined.

Lemma accessors_fit_buffers_witness :
  Forall (accessor_fits (Samples.final Cases.mixed))
    (accessors (Samples.final Cases.mixed)).
Proof.
  apply (accessors_fit_buffers pf pI Cases.mixed
           (Samples.final Cases.mixed) le_pack_f_length le_pack_I_length).
  vm_compute. reflexivity.
Defined.

Lemma accessors_tile_buffers_witness :
  tiled (Samples.final Samples.bad_middle).
Proof.
  apply (accessors_tile_buffers pf pI Samples.bad_middle
           (Samples.final Samples.bad_middle)
           le_pack_f_length le_pack_I_length).
  vm_compute. reflexivity.
Defined.

Lemma node_count_witness :
  length (nodes (Samples.final Samples.missing_frame))
  = expected_nodes Samples.missing_frame.
Proof.
  apply (node_count pf pI Samples.missing_frame
           (Samples.final Samples.missing_frame)).
  vm_compute. reflexivity.
Defined.

Lemma node_names_are_clean_witness :
  (39%N ∉ Node.name (Cases.first_node Cases.mixed))
  ∧ (∀ c, head (Node.name (Cases.first_node Cases.mixed)) = Some c →
          is_space c = false)
  ∧ (∀ c, last (Node.name (Cases.first_node Cases.mixed)) = Some c →
          is_space c = false).
Proof.
  apply (node_names_are_clean pf pI Cases.mixed (Samples.final Cases.mixed)).
  - vm_compute. reflexivity.
  - vm_compute. apply list_elem_of_here.
Defined.

Lemma node_name_ignores_link_witness :
  ∃ n1 n2,
    nodes (Cases.after_link Cases.mixed 0 Cases.small_link)
    = nodes (initial_state Cases.mixed) ++ [n1]
    ∧ nodes (Cases.after_link Cases.mixed 1 Cases.large_link)
      = nodes (initial_state Cases.mixed) ++ [n2]
    ∧ Node.name n1 = Node.name n2.
Proof.
  apply (node_name_ignores_link pf pI Cases.mixed Samples.idle_animation
           0 0 0 1 Cases.small_link Cases.large_link
           (initial_state Cases.mixed) (initial_state Cases.mixed)).
  - apply model_inv_initial.
  - apply model_inv_initial.
  - reflexivity.
  - reflexivity.
  - reflexivity.
  - vm_compute. reflexivity.
  - vm_compute. reflexivity.
Defined.

Lemma name_counter_counts_witness :
  anim_name_indexer (Samples.final Samples.run_walk_walk) !! lit "walk"
  = match occurrences (lit "walk") (animation_names Samples.run_walk_walk) with
    | 0 => None
    | S c => Some c
    end.
Proof.
  apply (name_counter_counts pf pI Samples.run_walk_walk
           (Samples.final Samples.run_walk_walk) (lit "walk")).
  vm_compute. reflexivity.
Defined.

Lemma clean_material_name_strips_literal_witness :
  clean_material_name (NameStr (lit "b'" ++ lit "skin" ++ lit "'"))
  = lit "skin".
Proof.
  apply (clean_material_name_strips_literal (lit "skin")).
  - apply (bool_decide_unpack _). vm_compute. exact I.
  - apply (bool_decide_unpack _). vm_compute. exact I.
Defined.

Lemma usage_lists_the_links_witness :
  (∀ mi li, (mi, li) ∈ Usage.mesh_links (Cases.usage_of Cases.mixed 0)
            ↔ ∃ l, link_at Cases.mixed mi li l ∧ MeshLink.material l = 0)
  ∧ (∀ li, li ∈ Usage.link_positions (Cases.usage_of Cases.mixed 0)
           ↔ ∃ mi l, link_at Cases.mixed mi li l ∧ MeshLink.material l = 0).
Proof.
  apply (usage_lists_the_links Cases.mixed (Cases.analysis Cases.mixed).1
           (Cases.analysis Cases.mixed).2 0 (Cases.usage_of Cases.mixed 0)).
  - vm_compute. reflexivity.
  - vm_compute. reflexivity.
Defined.

Lemma usage_lists_the_animations_witness :
  1 ∈ Usage.animations (Cases.usage_of Cases.mixed 1)
  ↔ ∃ fi li l, frame_link_at Cases.mixed 1 fi li l ∧ MeshLink.material l = 1.
Proof.
  apply (usage_lists_the_animations Cases.mixed (Cases.analysis Cases.mixed).1
           (Cases.analysis Cases.mixed).2 1 (Cases.usage_of Cases.mixed 1) 1).
  - vm_compute. reflexivity.
  - vm_compute. reflexivity.
Defined.

Lemma usage_warns_of_invalid_materials_witness :
  InvalidMaterial 1 0 5 ∈ (Cases.analysis Cases.mixed).2
  ↔ ∃ l, link_at Cases.mixed 1 0 l ∧ MeshLink.material l = 5
         ∧ length (Model.materials Cases.mixed) ≤ 5.
Proof.
  apply (usage_warns_of_invalid_materials Cases.mixed
           (Cases.analysis Cases.mixed).1 (Cases.analysis Cases.mixed).2 1 0 5).
  vm_compute. reflexivity.
Defined.

Lemma bound_materials_are_reported_witness :
  (∃ usage,
     (Cases.analysis Cases.mixed).1
       !! Primitive.material (Cases.first_primitive Cases.mixed) = Some usage
     ∧ Usage.mesh_links usage ≠ ∅
     ∧ Usage.animations usage ≠ ∅)
  ∨ (Primitive.material (Cases.first_primitive Cases.mixed) = 0
     ∧ ∃ mi li k, InvalidMaterial mi li k ∈ (Cases.analysis Cases.mixed).2).
Proof.
  apply (bound_materials_are_reported pf pI Cases.mixed
           (Samples.final Cases.mixed) (Cases.analysis Cases.mixed).1
           (Cases.analysis Cases.mixed).2 (Cases.first_mesh Cases.mixed)
           (Cases.first_primitive Cases.mixed)).
  - vm_compute. reflexivity.
  - vm_compute. reflexivity.
  - vm_compute. apply list_elem_of_here.
  - vm_compute. apply list_elem_of_here.
Defined.

Lemma selected_animation_names_witness :
  (0 ≤ 1)%Z
  ∧ ∃ a fi mi mesh l,
      Model.animations Cases.mixed !! Z.to_nat 1 = Some a
      ∧ Animation.meshes a !! fi = Some mi
      ∧ Model.meshes Cases.mixed !! mi = Some mesh
      ∧ l ∈ Mesh.links mesh
      ∧ Node.name (Cases.first_node (Cases.only 1 Cases.mixed)) =
          clean (decode_name (Animation.name a) ++ lit "_00_frame"
                 ++ format_02d fi ++ lit "_"
                 ++ material_name_of Cases.mixed
                      (bound_material Cases.mixed l)).
Proof.
  apply (selected_animation_names pf pI 1 Cases.mixed
           (Cases.only 1 Cases.mixed)
           (Samples.final (Cases.only 1 Cases.mixed))).
  - vm_compute. reflexivity.
  - vm_compute. reflexivity.
  - vm_compute. apply list_elem_of_here.
Defined.

Lemma skipped_work_is_reported_witness :
  frame_reported Samples.missing_frame
    (Animation.mk (NameBytes (blit "idle")) [0; 7]) 1 7
    (Samples.final Samples.missing_frame).
Proof.
  apply (skipped_work_is_reported pf pI Samples.missing_frame
           (Samples.final Samples.missing_frame) 0
           (Animation.mk (NameBytes (blit "idle")) [0; 7]) 1 7).
  - vm_compute. reflexivity.
  - reflexivity.
  - reflexivity.
Defined.

End CoverageClosed.
